(** * The staking indexer of [src/framework/chain/staking.ts]

    A shallow embedding of [createStakingIndexer] (the watch registry, the
    reload scheduler and executor, recovery) and of the [afterBlock] handler
    (the event extractor), followed by the properties of the specification
    that concern them.

    Conventions of the embedding.
    - Every closure variable of [createStakingIndexer] ([toReload],
      [toRemove], [registry], [revRegistry], [fullReload],
      [willReloadDynamically], [isActive]) is a field of [World], next to
      the two tables of the schema and the list of effects performed so far.
    - A JavaScript [Map] and [Set] keep insertion order; they are
      association lists ([JsMap]) and duplicate-free lists ([JsSet]).
    - Methods are computations in the state monad [M] over [World].
    - An [await] is modelled without interleaving: the awaited operation
      completes before any other task touches the state.  The executor has
      concurrency one, and [clear] is modelled at a drained queue.
    - [reboot] calls [clear] without awaiting it (line 279).  Where the
      reset of [clear] falls relative to the rest of [reboot] depends on the
      queue; [reboot] takes that as its argument ([ClearOutcome]), and the
      part of [clear] behind its [await] is a computation of its own
      ([clearAfterDrain]).
    - Exceptions of the collaborators (node client, database) are not
      modelled: every call returns. *)

From Stdlib Require Import String Ascii List Bool ZArith Lia.
Import ListNotations.
Local Open Scope string_scope.
Local Open Scope list_scope.

Set Implicit Arguments.

(** ** JavaScript containers *)

(** [truthy s] is the truth value JavaScript gives a string. *)
Definition truthy (s : string) : bool := negb (s =? "").

(** [Map<string, V>]: entries in insertion order, one per key. *)
Module JsMap.
Section WithValue.
Variable V : Type.

Definition t := list (string * V).

Definition empty : t := [].

Fixpoint get (k : string) (m : t) : option V :=
  match m with
  | [] => None
  | (k', v) :: m' => if k =? k' then Some v else get k m'
  end.

Definition has (k : string) (m : t) : bool :=
  match get k m with Some _ => true | None => false end.

(** [set] overwrites in place when the key exists, appends otherwise. *)
Fixpoint set (k : string) (v : V) (m : t) : t :=
  match m with
  | [] => [(k, v)]
  | (k', v') :: m' =>
      if k =? k' then (k', v) :: m' else (k', v') :: set k v m'
  end.

Definition delete (k : string) (m : t) : t :=
  filter (fun kv => negb (k =? fst kv)) m.

Definition values (m : t) : list V := map snd m.
Definition keys (m : t) : list string := map fst m.
Definition size (m : t) : nat := length m.
End WithValue.
Arguments empty {V}.
End JsMap.

(** [Set<string>]: members in insertion order. *)
Module JsSet.
Definition t := list string.

Definition empty : t := [].

Definition has (k : string) (s : t) : bool := existsb (String.eqb k) s.

Definition add (k : string) (s : t) : t := if has k s then s else s ++ [k].

Definition values (s : t) : list string := s.
Definition size (s : t) : nat := length s.
End JsSet.

(** ** Data model *)

(** The hashes and addresses are JavaScript strings, the amounts and slots
    integers. *)
Abbreviation StakingHash := string (only parsing).
Abbreviation RewardAddress := string (only parsing).
Abbreviation PoolId := string (only parsing).
Abbreviation TxHash := string (only parsing).
Abbreviation Lovelace := Z (only parsing).
Abbreviation Slot := Z (only parsing).

Inductive StakingType := Key | Script.

(** [ChainStakingActionWithPayload]: the action tag with its payload. *)
Inductive ChainStakingActionWithPayload :=
| Delegate (poolId : PoolId)
| Register
| Deregister
| Withdraw (amount : Lovelace).

Module ChainStaking.
Record t := mk {
  hash : StakingHash;
  action : ChainStakingActionWithPayload;
  slot : Slot;
  txId : TxHash
}.
End ChainStaking.

Module ChainStakingState.
Record t := mk {
  hash : StakingHash;
  address : RewardAddress;
  poolId : option PoolId;
  rewards : Lovelace;
  reloadedSlot : Slot
}.
End ChainStakingState.

(** The node's answers. *)
Inductive Tip := origin | tipAt (slot : Slot) (hash : string).

Module DelegationsAndRewards.
Record t := mk { delegate : option PoolId; rewards : option Lovelace }.
End DelegationsAndRewards.

(** The state-query client: [delegationsAndRewards] answers with an object
    whose own enumerable entries are listed in [Object.entries] order. *)
Record StateQueryClient := {
  ledgerTip : Tip;
  delegationsAndRewards :
    list RewardAddress -> list (string * DelegationsAndRewards.t)
}.

(** Blocks as the handler reads them. *)
Inductive Certificate :=
| stakeKeyRegistration (hash : StakingHash)
| stakeDelegation (delegator : StakingHash) (delegatee : PoolId)
| stakeKeyDeregistration (hash : StakingHash)
| otherCertificate.

Module Tx.
Record t := mk {
  id : TxHash;
  withdrawals : list (RewardAddress * Lovelace);
  certificates : list Certificate
}.
End Tx.

Module Block.
Record t := mk { slot : Slot; body : list Tx.t }.
End Block.

(** ** Effects *)

Inductive Message :=
| Stopping | Stopped | AlreadyStopped | Starting | Started
| InactiveIgnoredReload (what : option (list StakingHash))
| ReloadingAll
| Reloading (n : nat)
| AddressToNotFound (hash : StakingHash)
| AddressFromNotFound (hash : string)
| Removed (hash : string) (address : RewardAddress)
| Reloaded (n : nat) (tip : Tip)
| Clear | Reboot
| Watched (type : StakingType) (hash : StakingHash) (address : RewardAddress)
| WatchedBatch (n : nat) (type : StakingType)
| Unwatched (hash : StakingHash)
| NotFound (hash : StakingHash).

Inductive Effect :=
| ConsoleLog (m : Message)
| ConsoleWarn (m : Message)
| ReloadDebounce
| ReloadDebounceCancel
| ClearInterval
| QueuePause | QueueResume | QueueKillAndDrain
| ClientCreate | ClientShutdown
| ClientLedgerTip
| ClientDelegationsAndRewards (batch : list RewardAddress)
| SqlUpsertStakingState (rows : list ChainStakingState.t)
| SqlInsertStaking (events : list ChainStaking.t)
| SqlSelectActive
| OnReloaded (reloaded : list RewardAddress) (fullReload : bool)
| StoreBlock.

(** ** State *)

Record World := mkWorld {
  toReload : JsSet.t;
  toRemove : JsSet.t;
  registry : JsMap.t RewardAddress;
  revRegistry : JsMap.t StakingHash;
  fullReload : bool;
  willReloadDynamically : bool;
  isActive : bool;
  (** table [chain.staking], rows in [id] order *)
  staking : list ChainStaking.t;
  (** table [chain.staking_state], keyed by its primary key [hash] *)
  staking_state : JsMap.t ChainStakingState.t;
  (** everything written to the console or sent to a collaborator *)
  effects : list Effect
}.

Definition with_toReload (v : JsSet.t) (w : World) : World :=
  mkWorld v (toRemove w) (registry w) (revRegistry w) (fullReload w)
    (willReloadDynamically w) (isActive w) (staking w) (staking_state w)
    (effects w).
Definition with_toRemove (v : JsSet.t) (w : World) : World :=
  mkWorld (toReload w) v (registry w) (revRegistry w) (fullReload w)
    (willReloadDynamically w) (isActive w) (staking w) (staking_state w)
    (effects w).
Definition with_registry (v : JsMap.t RewardAddress) (w : World) : World :=
  mkWorld (toReload w) (toRemove w) v (revRegistry w) (fullReload w)
    (willReloadDynamically w) (isActive w) (staking w) (staking_state w)
    (effects w).
Definition with_revRegistry (v : JsMap.t StakingHash) (w : World) : World :=
  mkWorld (toReload w) (toRemove w) (registry w) v (fullReload w)
    (willReloadDynamically w) (isActive w) (staking w) (staking_state w)
    (effects w).
Definition with_fullReload (v : bool) (w : World) : World :=
  mkWorld (toReload w) (toRemove w) (registry w) (revRegistry w) v
    (willReloadDynamically w) (isActive w) (staking w) (staking_state w)
    (effects w).
Definition with_willReloadDynamically (v : bool) (w : World) : World :=
  mkWorld (toReload w) (toRemove w) (registry w) (revRegistry w)
    (fullReload w) v (isActive w) (staking w) (staking_state w) (effects w).
Definition with_isActive (v : bool) (w : World) : World :=
  mkWorld (toReload w) (toRemove w) (registry w) (revRegistry w)
    (fullReload w) (willReloadDynamically w) v (staking w) (staking_state w)
    (effects w).
Definition with_staking (v : list ChainStaking.t) (w : World) : World :=
  mkWorld (toReload w) (toRemove w) (registry w) (revRegistry w)
    (fullReload w) (willReloadDynamically w) (isActive w) v (staking_state w)
    (effects w).
Definition with_staking_state (v : JsMap.t ChainStakingState.t) (w : World)
  : World :=
  mkWorld (toReload w) (toRemove w) (registry w) (revRegistry w)
    (fullReload w) (willReloadDynamically w) (isActive w) (staking w) v
    (effects w).
Definition with_effects (v : list Effect) (w : World) : World :=
  mkWorld (toReload w) (toRemove w) (registry w) (revRegistry w)
    (fullReload w) (willReloadDynamically w) (isActive w) (staking w)
    (staking_state w) v.

(** The closure right after [createStakingIndexer], over given tables. *)
Definition createStakingIndexer (log : list ChainStaking.t)
  (state : JsMap.t ChainStakingState.t) : World :=
  mkWorld JsSet.empty JsSet.empty JsMap.empty JsMap.empty false false false
    log state [].

(** ** The monad of methods *)

Definition M (A : Type) : Type := World -> A * World.

Definition ret {A} (a : A) : M A := fun w => (a, w).
Definition bind {A B} (c : M A) (k : A -> M B) : M B :=
  fun w => let (a, w') := c w in k a w'.

Declare Scope method_scope.
Delimit Scope method_scope with method.
Notation "x <- c ;; k" := (bind c (fun x => k))
  (at level 61, c at next level, right associativity) : method_scope.
Notation "c ;; k" := (bind c (fun _ => k))
  (at level 61, right associativity) : method_scope.
Local Open Scope method_scope.

Definition read : M World := fun w => (w, w).
Definition update (f : World -> World) : M unit := fun w => (tt, f w).
Definition emit (e : Effect) : M unit :=
  update (fun w => with_effects (effects w ++ [e]) w).
Definition when (b : bool) (c : M unit) : M unit := if b then c else ret tt.

(** [exec] keeps the final state, [eval] the returned value. *)
Definition exec {A} (c : M A) (w : World) : World := snd (c w).
Definition eval {A} (c : M A) (w : World) : A := fst (c w).

(** [for (const x of xs) body(x)] *)
Fixpoint forEach {X} (xs : list X) (body : X -> M unit) : M unit :=
  match xs with
  | [] => ret tt
  | x :: xs' => body x ;; forEach xs' body
  end.

(** a loop that grows a local variable *)
Fixpoint foldM {X A} (xs : list X) (acc : A) (body : A -> X -> M A) : M A :=
  match xs with
  | [] => ret acc
  | x :: xs' => acc' <- body acc x ;; foldM xs' acc' body
  end.

(** ** The database statements *)

(** [INSERT INTO chain.staking ...]: the identity column grows, so the new
    rows go to the end of the table. *)
Definition sqlInsertStaking (events : list ChainStaking.t) : M unit :=
  emit (SqlInsertStaking events) ;;
  update (fun w => with_staking (staking w ++ events) w).

(** [INSERT INTO chain.staking_state ... ON CONFLICT (hash) DO UPDATE SET]
    every other column. *)
Definition upsertRows (rows : list ChainStakingState.t)
  (table : JsMap.t ChainStakingState.t) : JsMap.t ChainStakingState.t :=
  fold_left (fun tbl row => JsMap.set (ChainStakingState.hash row) row tbl)
    rows table.

Definition sqlUpsertStakingState (rows : list ChainStakingState.t) : M unit :=
  emit (SqlUpsertStakingState rows) ;;
  update (fun w => with_staking_state (upsertRows rows (staking_state w)) w).

(** The recovery query of [reboot], read inside out.
    [ORDER BY hash, id DESC]: a stable insertion sort by [hash] (byte order)
    of the table taken from the highest [id] down. *)
Fixpoint insertByHash (r : ChainStaking.t) (sorted : list ChainStaking.t)
  : list ChainStaking.t :=
  match sorted with
  | [] => [r]
  | x :: xs =>
      if (ChainStaking.hash r <=? ChainStaking.hash x)%string
      then r :: x :: xs
      else x :: insertByHash r xs
  end.

Definition orderByHashIdDesc (table : list ChainStaking.t)
  : list ChainStaking.t :=
  fold_right insertByHash [] (rev table).

(** [SELECT DISTINCT ON (hash)]: the first row of every group of rows with
    the same [hash]. *)
Fixpoint distinctOnHash (rows : list ChainStaking.t) : list ChainStaking.t :=
  match rows with
  | [] => []
  | r :: rs =>
      r :: filter
             (fun x => negb (ChainStaking.hash x =? ChainStaking.hash r))
             (distinctOnHash rs)
  end.

(** [action <> 'deregister' AS is_active] *)
Definition is_active (r : ChainStaking.t) : bool :=
  match ChainStaking.action r with
  | Deregister => false
  | _ => true
  end.

(** [SELECT hash FROM (...) s WHERE is_active] *)
Definition selectActive (table : list ChainStaking.t) : list StakingHash :=
  map ChainStaking.hash
    (filter is_active (distinctOnHash (orderByHashIdDesc table))).

(** ** The indexer *)

(** What the un-awaited [this.clear()] of [reboot] (line 279) has done by
    the time the rows of the recovery query arrive. *)
Inductive ClearOutcome :=
| ClearLandsFirst
  (** the queue was idle: [drained()] was already resolved and the rest of
      [clear] ran, as a microtask, before the rows came back *)
| ClearPending
  (** a reload was in flight and outlasts the query: the queue is paused,
      the reset of [clear] has not run yet; it runs when the queue drains *)
| ClearRejects.
  (** before [start()]: [reloadQueue] is undefined, [reloadQueue.pause()]
      throws, the promise of [clear] rejects and nobody looks at it *)

Section Indexer.
(** [lucid.utils.credentialToRewardAddress] *)
Variable credentialToRewardAddress :
  StakingType -> StakingHash -> RewardAddress.
(** [slotFrom] of [./conversions] *)
Variable slotFrom : Tip -> Slot.
(** whether the caller supplied [onReloaded] *)
Variable onReloaded : bool.

(** [toReload.size && toReload.clear()] *)
Definition clearToReload : M unit :=
  w <- read ;;
  when (negb (Nat.eqb (JsSet.size (toReload w)) 0))
    (update (with_toReload JsSet.empty)).

(** [reload], lines 143-152 *)
Definition reload (hashes : option (list StakingHash)) : M unit :=
  w <- read ;;
  if fullReload w then ret tt
  else
    match hashes with
    | None =>
        update (with_fullReload true) ;;
        emit ReloadDebounce
    | Some hashes =>
        forEach hashes (fun hash =>
          update (fun w => with_toReload (JsSet.add hash (toReload w)) w)) ;;
        w <- read ;;
        when (willReloadDynamically w) (emit ReloadDebounce)
    end.

(** [stop], lines 154-167 *)
Definition stop : M unit :=
  w <- read ;;
  if isActive w then
    emit (ConsoleLog Stopping) ;;
    update (with_isActive false) ;;
    emit ClearInterval ;;
    emit ReloadDebounceCancel ;;
    emit QueueKillAndDrain ;;
    emit ClientShutdown ;;
    emit (ConsoleLog Stopped)
  else emit (ConsoleWarn AlreadyStopped).

(** [start], lines 170-193 *)
Definition start : M unit :=
  emit (ConsoleLog Starting) ;;
  emit ClientCreate ;;
  update (with_isActive true) ;;
  emit (ConsoleLog Started).

(** [doReload], lines 216-220: one iteration over [toReload.values()]. *)
Definition collectAddress (batch : list RewardAddress) (hash : StakingHash)
  : M (list RewardAddress) :=
  w <- read ;;
  match JsMap.get hash (registry w) with
  | Some address =>
      if truthy address then ret (batch ++ [address])
      else emit (ConsoleWarn (AddressToNotFound hash)) ;; ret batch
  | None => emit (ConsoleWarn (AddressToNotFound hash)) ;; ret batch
  end.

(** [doReload], lines 206-222: the batch of this execution. *)
Definition takeBatch : M (option (list RewardAddress)) :=
  w <- read ;;
  let wasFullReload := fullReload w in
  if wasFullReload then
    emit (ConsoleLog ReloadingAll) ;;
    let batch := JsMap.values (registry w) in
    update (with_fullReload false) ;;
    clearToReload ;;
    ret (Some batch)
  else if negb (Nat.eqb (JsSet.size (toReload w)) 0) then
    emit (ConsoleLog (Reloading (JsSet.size (toReload w)))) ;;
    batch <- foldM (JsSet.values (toReload w)) [] collectAddress ;;
    update (with_toReload JsSet.empty) ;;
    ret (Some batch)
  else ret None.

(** [doReload], lines 230-246: one iteration over [Object.entries]. *)
Definition mergeEntry (tip : Tip) (stakingStates : list ChainStakingState.t)
  (item : string * DelegationsAndRewards.t)
  : M (list ChainStakingState.t) :=
  let (hash, entry) := item in
  w <- read ;;
  let address :=
    match JsMap.get hash (registry w) with Some a => a | None => "" end in
  when (negb (truthy address)) (emit (ConsoleWarn (AddressFromNotFound hash))) ;;
  let row :=
    ChainStakingState.mk hash address
      (DelegationsAndRewards.delegate entry)
      (match DelegationsAndRewards.rewards entry with
       | Some r => r
       | None => 0%Z
       end)
      (slotFrom tip) in
  when (JsSet.has hash (toRemove w))
    (update (fun w => with_registry (JsMap.delete hash (registry w)) w) ;;
     update (fun w =>
       with_revRegistry (JsMap.delete address (revRegistry w)) w) ;;
     emit (ConsoleLog (Removed hash address))) ;;
  ret (stakingStates ++ [row]).

(** [doReload], lines 224-263: fetch, merge, persist, report. *)
Definition mergeBatch (client : StateQueryClient)
  (batch : list RewardAddress) : M unit :=
  emit ClientLedgerTip ;;
  emit (ClientDelegationsAndRewards batch) ;;
  let tip := ledgerTip client in
  let response := delegationsAndRewards client batch in
  stakingStates <- foldM response [] (mergeEntry tip) ;;
  when (negb (Nat.eqb (length stakingStates) 0))
    (sqlUpsertStakingState stakingStates) ;;
  emit (ConsoleLog (Reloaded (length batch) tip)) ;;
  when onReloaded
    (w <- read ;; emit (OnReloaded batch (fullReload w))).

(** [doReload], lines 195-264 *)
Definition doReload (client : StateQueryClient) : M unit :=
  w <- read ;;
  if negb (isActive w) then
    emit (ConsoleWarn (InactiveIgnoredReload
      (if fullReload w then None else Some (JsSet.values (toReload w))))) ;;
    clearToReload
  else
    batch <- takeBatch ;;
    match batch with
    | Some ((_ :: _) as batch) => mergeBatch client batch
    | _ => ret tt
    end.

(** [clear], lines 270-276: what runs once [reloadQueue.drained()] has
    resolved. *)
Definition clearAfterDrain : M unit :=
  update (with_registry JsMap.empty) ;;
  update (with_revRegistry JsMap.empty) ;;
  update (with_toReload JsSet.empty) ;;
  update (with_toRemove JsSet.empty) ;;
  update (with_fullReload false) ;;
  emit QueueResume ;;
  emit (ConsoleLog Clear).

(** [clear], lines 267-277, awaited at a drained queue. *)
Definition clear : M unit :=
  emit QueuePause ;;
  clearAfterDrain.

(** [watch], lines 299-304 *)
Definition watch (hash : StakingHash) (type : StakingType) : M unit :=
  let address := credentialToRewardAddress type hash in
  update (fun w => with_registry (JsMap.set hash address (registry w)) w) ;;
  update (fun w =>
    with_revRegistry (JsMap.set address hash (revRegistry w)) w) ;;
  emit (ConsoleLog (Watched type hash address)).

(** [batchWatch], lines 305-312 *)
Definition batchWatch (hashes : list StakingHash) (type : StakingType)
  : M unit :=
  forEach hashes (fun hash =>
    let address := credentialToRewardAddress type hash in
    update (fun w => with_registry (JsMap.set hash address (registry w)) w) ;;
    update (fun w =>
      with_revRegistry (JsMap.set address hash (revRegistry w)) w)) ;;
  emit (ConsoleLog (WatchedBatch (length hashes) type)).

(** [reboot], lines 278-298.  Line 279 is [this.clear()] without [await]:
    [reboot] runs the synchronous start of [clear] and goes on to its query;
    what [clear] has done by the time the rows are there is [outcome]. *)
Definition reboot (outcome : ClearOutcome) : M unit :=
  match outcome with
  | ClearLandsFirst => clear
  | ClearPending => emit QueuePause
  | ClearRejects => ret tt
  end ;;
  emit SqlSelectActive ;;
  w <- read ;;
  let hashes := selectActive (staking w) in
  batchWatch hashes Script ;;
  emit (ConsoleLog Reboot).

(** [unwatch], lines 313-322 *)
Definition unwatch (hash : StakingHash) : M bool :=
  w <- read ;;
  if JsMap.has hash (registry w) then
    update (fun w => with_toRemove (JsSet.add hash (toRemove w)) w) ;;
    emit (ConsoleLog (Unwatched hash)) ;;
    ret true
  else
    emit (ConsoleWarn (NotFound hash)) ;;
    ret false.

(** the lookups, lines 323-334 *)
Definition fromHash (hash : StakingHash) : M (option RewardAddress) :=
  w <- read ;; ret (JsMap.get hash (registry w)).
Definition fromAddress (address : RewardAddress) : M (option StakingHash) :=
  w <- read ;; ret (JsMap.get address (revRegistry w)).
Definition isHashWatched (hash : StakingHash) : M bool :=
  w <- read ;; ret (JsMap.has hash (registry w)).
Definition isAddressWatched (address : RewardAddress) : M bool :=
  w <- read ;; ret (JsMap.has address (revRegistry w)).

(** [toggleReloadDynamically], lines 335-337 *)
Definition toggleReloadDynamically (state : bool) : M unit :=
  update (with_willReloadDynamically state).

(** ** The block handler, lines 342-410 *)

(** lines 356-366: one withdrawal entry *)
Definition scanWithdrawal (slot : Slot) (txId : TxHash)
  (events : list ChainStaking.t) (item : RewardAddress * Lovelace)
  : M (list ChainStaking.t) :=
  let (address, amount) := item in
  hash <- fromAddress address ;;
  match hash with
  | Some hash =>
      if truthy hash
      then ret (events ++ [ChainStaking.mk hash (Withdraw amount) slot txId])
      else ret events
  | None => ret events
  end.

(** lines 367-402: one certificate *)
Definition scanCertificate (slot : Slot) (txId : TxHash)
  (events : list ChainStaking.t) (cert : Certificate)
  : M (list ChainStaking.t) :=
  match cert with
  | stakeKeyRegistration hash =>
      watched <- isHashWatched hash ;;
      if watched
      then ret (events ++ [ChainStaking.mk hash Register slot txId])
      else ret events
  | stakeDelegation hash delegatee =>
      watched <- isHashWatched hash ;;
      if watched
      then ret (events ++ [ChainStaking.mk hash (Delegate delegatee) slot txId])
      else ret events
  | stakeKeyDeregistration hash =>
      watched <- isHashWatched hash ;;
      if watched
      then unwatch hash ;;
           ret (events ++ [ChainStaking.mk hash Deregister slot txId])
      else ret events
  | otherCertificate => ret events
  end.

(** lines 352-403: one transaction *)
Definition scanTx (slot : Slot) (events : list ChainStaking.t) (tx : Tx.t)
  : M (list ChainStaking.t) :=
  let txId := Tx.id tx in
  events <- foldM (Tx.withdrawals tx) events (scanWithdrawal slot txId) ;;
  foldM (Tx.certificates tx) events (scanCertificate slot txId).

(** lines 350-403 *)
Definition extractEvents (block : Block.t) : M (list ChainStaking.t) :=
  let slot := Block.slot block in
  foldM (Block.body block) [] (scanTx slot).

(** lines 404-408; [storeBlock] tells whether the hook was supplied. *)
Definition afterBlock (block : Block.t) (inSync storeBlock : bool)
  : M unit :=
  events <- extractEvents block ;;
  match events with
  | [] => ret tt
  | _ :: _ =>
      when storeBlock (emit StoreBlock) ;;
      sqlInsertStaking events ;;
      when inSync (reload (Some (map ChainStaking.hash events)))
  end.
End Indexer.

(** ** Sequences of registry calls *)

Inductive RegistryCall :=
| CallWatch (hash : StakingHash) (type : StakingType)
| CallBatchWatch (hashes : list StakingHash) (type : StakingType)
| CallUnwatch (hash : StakingHash).

Definition runCall (derive : StakingType -> StakingHash -> RewardAddress)
  (c : RegistryCall) : M unit :=
  match c with
  | CallWatch hash type => watch derive hash type
  | CallBatchWatch hashes type => batchWatch derive hashes type
  | CallUnwatch hash => _ <- unwatch hash ;; ret tt
  end.

Definition runCalls (derive : StakingType -> StakingHash -> RewardAddress)
  (cs : list RegistryCall) : M unit :=
  forEach cs (runCall derive).

(** The two maps are inverses of each other. *)
Definition registry_inverse (w : World) : Prop :=
  forall (h : StakingHash) (a : RewardAddress),
    JsMap.get h (registry w) = Some a <-> JsMap.get a (revRegistry w) = Some h.

(** Every call of the sequence watches a credential with the kind [kind]
    gives it. *)
Definition sameKind (kind : StakingHash -> StakingType) (c : RegistryCall)
  : Prop :=
  match c with
  | CallWatch h t => t = kind h
  | CallBatchWatch hs t => forall h, In h hs -> t = kind h
  | CallUnwatch _ => True
  end.

(** A reward address in hexadecimal, before its bech32 encoding: the header
    byte ([e0] for a key hash, [f0] for a script hash, network 0) followed
    by the credential. *)
Definition hexRewardAddress (type : StakingType) (hash : StakingHash)
  : RewardAddress :=
  String.append (match type with Key => "e0" | Script => "f0" end) hash.

(** The maps are inverses and every credential sits at the address of its
    kind. *)
Definition inverse_at_kind
  (derive : StakingType -> StakingHash -> RewardAddress)
  (kind : StakingHash -> StakingType)
  (reg : JsMap.t RewardAddress) (rev : JsMap.t StakingHash) : Prop :=
  (forall h a, JsMap.get h reg = Some a <-> JsMap.get a rev = Some h) /\
  (forall h a, JsMap.get h reg = Some a -> a = derive (kind h) h).

Definition world_inverse_at_kind
  (derive : StakingType -> StakingHash -> RewardAddress)
  (kind : StakingHash -> StakingType) (w : World) : Prop :=
  inverse_at_kind derive kind (registry w) (revRegistry w).

(** [frame w w']: [w'] differs from [w] at most in the two registry maps and
    in the effects performed. *)
Definition frame (w w' : World) : Prop :=
  toReload w' = toReload w /\
  toRemove w' = toRemove w /\
  fullReload w' = fullReload w /\
  willReloadDynamically w' = willReloadDynamically w /\
  isActive w' = isActive w /\
  staking w' = staking w /\
  staking_state w' = staking_state w.

(** The keys of the node's answer, in iteration order. *)
Definition responseKeys (client : StateQueryClient)
  (batch : list RewardAddress) : list string :=
  map fst (delegationsAndRewards client batch).

(** Effects that only write to the console. *)
Definition isConsole (e : Effect) : bool :=
  match e with
  | ConsoleLog _ | ConsoleWarn _ => true
  | _ => false
  end.

(** ** Sample collaborators and states

    A node that answers one entry per address of the batch, keyed by the
    credential the address carries (the address without its header byte),
    and the usual reading of a tip. *)
Definition hexCredential (address : RewardAddress) : StakingHash :=
  substring 2 (String.length address - 2) address.

Definition sampleClient : StateQueryClient := {|
  ledgerTip := tipAt 1000 "b10c";
  delegationsAndRewards := fun batch =>
    map (fun address =>
           (hexCredential address,
            DelegationsAndRewards.mk (Some "pool1") (Some 5%Z)))
        batch
|}.

Definition sampleSlotFrom (tip : Tip) : Slot :=
  match tip with
  | origin => 0%Z
  | tipAt slot _ => slot
  end.

(** A started indexer that watches the script credential [c1]. *)
Definition watchingC1 : World :=
  exec (start ;; watch hexRewardAddress "c1" Script)
       (createStakingIndexer [] []).

(** [c1] was unwatched and a reload of it is pending. *)
Definition removingC1 : World :=
  exec (_ <- unwatch "c1" ;; reload (Some ["c1"])) watchingC1.

(** A full reload is pending. *)
Definition fullReloadPending : World := exec (reload None) watchingC1.


(** ** The event extractor, as lists

    The actions the two loops of the handler collect for one transaction,
    read off the registry of the state the block arrives in. *)
Definition withdrawalActions (w : World) (slot : Slot) (txId : TxHash)
  (withdrawals : list (RewardAddress * Lovelace)) : list ChainStaking.t :=
  flat_map (fun item : RewardAddress * Lovelace =>
    let (address, amount) := item in
    match JsMap.get address (revRegistry w) with
    | Some hash =>
        if truthy hash
        then [ChainStaking.mk hash (Withdraw amount) slot txId]
        else []
    | None => []
    end) withdrawals.

Definition certificateActions (w : World) (slot : Slot) (txId : TxHash)
  (cert : Certificate) : list ChainStaking.t :=
  match cert with
  | stakeKeyRegistration hash =>
      if JsMap.has hash (registry w)
      then [ChainStaking.mk hash Register slot txId] else []
  | stakeDelegation hash delegatee =>
      if JsMap.has hash (registry w)
      then [ChainStaking.mk hash (Delegate delegatee) slot txId] else []
  | stakeKeyDeregistration hash =>
      if JsMap.has hash (registry w)
      then [ChainStaking.mk hash Deregister slot txId] else []
  | otherCertificate => []
  end.

Definition txActions (w : World) (slot : Slot) (tx : Tx.t)
  : list ChainStaking.t :=
  withdrawalActions w slot (Tx.id tx) (Tx.withdrawals tx) ++
  flat_map (certificateActions w slot (Tx.id tx)) (Tx.certificates tx).

Definition blockActions (w : World) (block : Block.t) : list ChainStaking.t :=
  flat_map (txActions w (Block.slot block)) (Block.body block).

(** The credentials of the deregister actions, in order. *)
Definition deregistered (events : list ChainStaking.t) : list StakingHash :=
  flat_map (fun e =>
    match ChainStaking.action e with
    | Deregister => [ChainStaking.hash e]
    | _ => []
    end) events.

(** [unwatch] called on each credential in turn, the answer dropped. *)
Definition unwatchAll (hashes : list StakingHash) : M unit :=
  forEach hashes (fun hash => _ <- unwatch hash ;; ret tt).

(** The extractor in the words of the specification: a withdraw action for
    each withdrawal entry whose address resolves, through the registry, to a
    watched credential; a register, delegate or deregister action for each
    such certificate whose credential is watched. *)
Definition specWithdrawalActions (w : World) (slot : Slot) (txId : TxHash)
  (withdrawals : list (RewardAddress * Lovelace)) : list ChainStaking.t :=
  flat_map (fun item : RewardAddress * Lovelace =>
    let (address, amount) := item in
    match JsMap.get address (revRegistry w) with
    | Some hash =>
        if JsMap.has hash (registry w)
        then [ChainStaking.mk hash (Withdraw amount) slot txId]
        else []
    | None => []
    end) withdrawals.

Definition specCertificateActions (w : World) (slot : Slot) (txId : TxHash)
  (cert : Certificate) : list ChainStaking.t :=
  let watched hash := JsMap.has hash (registry w) in
  match cert with
  | stakeKeyRegistration hash =>
      if watched hash then [ChainStaking.mk hash Register slot txId] else []
  | stakeDelegation delegator pool =>
      if watched delegator
      then [ChainStaking.mk delegator (Delegate pool) slot txId] else []
  | stakeKeyDeregistration hash =>
      if watched hash then [ChainStaking.mk hash Deregister slot txId] else []
  | otherCertificate => []
  end.

Definition specBlockActions (w : World) (block : Block.t)
  : list ChainStaking.t :=
  flat_map (fun tx =>
    specWithdrawalActions w (Block.slot block) (Tx.id tx) (Tx.withdrawals tx)
    ++ flat_map (specCertificateActions w (Block.slot block) (Tx.id tx))
         (Tx.certificates tx))
    (Block.body block).

(** Every address of the reverse map belongs to a watched, non-empty
    credential. *)
Definition reverse_sound (w : World) : Prop :=
  forall a h, JsMap.get a (revRegistry w) = Some h ->
              h <> "" /\ JsMap.has h (registry w) = true.

(** The scenario of the specification: a block at slot 1000 whose only
    transaction registers the watched credential [H1]. *)
Definition watchingH1 : World :=
  exec (start ;; watch hexRewardAddress "H1" Script ;;
        toggleReloadDynamically true)
       (createStakingIndexer [] []).

Definition registrationOfH1 : Block.t :=
  Block.mk 1000 [Tx.mk "tx0" [] [stakeKeyRegistration "H1"]].

Definition registerH1 : ChainStaking.t :=
  ChainStaking.mk "H1" Register 1000 "tx0".

(** A block that touches the watched credential [c1] and the unknown
    credential [zz]. *)
Definition mixedBlock : Block.t :=
  Block.mk 2000
    [Tx.mk "tx1"
       [("f0c1", 42%Z); ("f0zz", 7%Z)]
       [stakeDelegation "c1" "pool9"; stakeKeyRegistration "zz";
        stakeKeyDeregistration "c1"; otherCertificate;
        stakeKeyDeregistration "zz"]].

(** ** Recovery, in the words of the specification

    The most recent action logged for a credential: the action of the last
    row, in insertion order, that carries it. *)
Fixpoint mostRecentAction (h : StakingHash) (table : list ChainStaking.t)
  : option ChainStakingActionWithPayload :=
  match table with
  | [] => None
  | r :: rest =>
      match mostRecentAction h rest with
      | Some a => Some a
      | None =>
          if ChainStaking.hash r =? h then Some (ChainStaking.action r)
          else None
      end
  end.

(** The log of the recovery scenario: [X] registers, delegates and
    withdraws; [Y] registers and deregisters. *)
Definition recoveryLog : list ChainStaking.t :=
  [ChainStaking.mk "X" Register 10 "t1";
   ChainStaking.mk "Y" Register 11 "t2";
   ChainStaking.mk "X" (Delegate "pool1") 12 "t3";
   ChainStaking.mk "Y" Deregister 13 "t4";
   ChainStaking.mk "X" (Withdraw 5) 14 "t5"].

(** [carries h r]: the row [r] is about the credential [h]. *)
Definition carries (h : StakingHash) (r : ChainStaking.t) : bool :=
  ChainStaking.hash r =? h.

(** ** Further readings of the code

    What a selective execution collects for one pending credential: its
    address when the registry has a truthy one (lines 216-220). *)
Definition pendingAddress (w : World) (hash : StakingHash)
  : list RewardAddress :=
  match JsMap.get hash (registry w) with
  | Some address => if truthy address then [address] else []
  | None => []
  end.

Definition pendingAddresses (w : World) : list RewardAddress :=
  flat_map (pendingAddress w) (JsSet.values (toReload w)).

(** The warnings of the same loop: one for each credential left out. *)
Definition missingAddressWarnings (w : World) (hashes : list StakingHash)
  : list Effect :=
  flat_map (fun hash =>
    match pendingAddress w hash with
    | [] => [ConsoleWarn (AddressToNotFound hash)]
    | _ :: _ => []
    end) hashes.

(** The row the merge builds for one entry of the answer (lines 231-240),
    over the forward map [reg] of the moment. *)
Definition snapshotRow (slotFrom : Tip -> Slot) (tip : Tip)
  (reg : JsMap.t RewardAddress) (item : string * DelegationsAndRewards.t)
  : ChainStakingState.t :=
  let (hash, entry) := item in
  ChainStakingState.mk hash
    (match JsMap.get hash reg with Some a => a | None => "" end)
    (DelegationsAndRewards.delegate entry)
    (match DelegationsAndRewards.rewards entry with
     | Some r => r
     | None => 0%Z
     end)
    (slotFrom tip).

(** Where an action of the extractor comes from in a transaction. *)
Definition comesFrom (w : World) (tx : Tx.t) (e : ChainStaking.t) : Prop :=
  match ChainStaking.action e with
  | Withdraw amount =>
      exists address,
        In (address, amount) (Tx.withdrawals tx) /\
        JsMap.get address (revRegistry w) = Some (ChainStaking.hash e)
  | Register =>
      In (stakeKeyRegistration (ChainStaking.hash e)) (Tx.certificates tx)
  | Delegate pool =>
      In (stakeDelegation (ChainStaking.hash e) pool) (Tx.certificates tx)
  | Deregister =>
      In (stakeKeyDeregistration (ChainStaking.hash e)) (Tx.certificates tx)
  end.

(** ** Sequences of calls on the whole surface

    Every public operation, a run of [doReload] by the queue, a block handed
    to [afterBlock], and the reset a [reboot] left pending
    ([CallClearAfterDrain], after [CallReboot ClearPending]). *)
Inductive IndexerCall :=
| CallStart
| CallStop
| CallClear
| CallReboot (outcome : ClearOutcome)
| CallClearAfterDrain
| CallRegistry (c : RegistryCall)
| CallToggle (state : bool)
| CallReload (hashes : option (list StakingHash))
| CallDoReload (client : StateQueryClient)
| CallAfterBlock (block : Block.t) (inSync storeBlock : bool).

Definition runIndexerCall
  (derive : StakingType -> StakingHash -> RewardAddress)
  (slotFrom : Tip -> Slot) (onReloaded : bool) (c : IndexerCall) : M unit :=
  match c with
  | CallStart => start
  | CallStop => stop
  | CallClear => clear
  | CallReboot outcome => reboot derive outcome
  | CallClearAfterDrain => clearAfterDrain
  | CallRegistry c => runCall derive c
  | CallToggle state => toggleReloadDynamically state
  | CallReload hashes => reload hashes
  | CallDoReload client => doReload slotFrom onReloaded client
  | CallAfterBlock block inSync storeBlock =>
      afterBlock block inSync storeBlock
  end.

Definition runIndexerCalls
  (derive : StakingType -> StakingHash -> RewardAddress)
  (slotFrom : Tip -> Slot) (onReloaded : bool) (cs : list IndexerCall)
  : M unit :=
  forEach cs (runIndexerCall derive slotFrom onReloaded).

(** The use the file is written for (lines 23-24): script credentials only,
    none of them the empty string. *)
Definition scriptOnly (c : IndexerCall) : Prop :=
  match c with
  | CallRegistry (CallWatch h t) => t = Script /\ h <> ""
  | CallRegistry (CallBatchWatch hs t) => t = Script /\ ~ In "" hs
  | _ => True
  end.

(** The state such a use keeps: inverse maps, every credential at its
    script address, no empty credential in the registry or in the log. *)
Definition healthy (derive : StakingType -> StakingHash -> RewardAddress)
  (w : World) : Prop :=
  inverse_at_kind derive (fun _ => Script) (registry w) (revRegistry w) /\
  (forall h a, JsMap.get h (registry w) = Some a -> h <> "") /\
  Forall (fun r => ChainStaking.hash r <> "") (staking w).

(** The part of [healthy] that is about the two maps. *)
Definition soundMaps (derive : StakingType -> StakingHash -> RewardAddress)
  (reg : JsMap.t RewardAddress) (rev : JsMap.t StakingHash) : Prop :=
  inverse_at_kind derive (fun _ => Script) reg rev /\
  (forall h a, JsMap.get h reg = Some a -> h <> "").

(** A run over the log of the recovery scenario: recovery, a watch, a block
    that deregisters, a full reload and its execution, a stop. *)
Definition sampleRun : list IndexerCall :=
  [CallStart; CallReboot ClearLandsFirst;
   CallRegistry (CallWatch "c1" Script);
   CallToggle true;
   CallAfterBlock mixedBlock true false;
   CallReload None; CallDoReload sampleClient;
   CallRegistry (CallUnwatch "X"); CallReload (Some ["X"; "X"]);
   CallStop].

(** ** More sample states

    A started indexer that watched [c] as a key credential, then as a script
    credential, unwatched it, and ran the periodic full reload: the forward
    map has forgotten [c], the reverse map still resolves the key address. *)
Definition staleReverseC : World :=
  exec (start ;;
        watch hexRewardAddress "c" Key ;;
        watch hexRewardAddress "c" Script ;;
        _ <- unwatch "c" ;;
        reload None ;;
        doReload sampleSlotFrom true sampleClient)
       (createStakingIndexer [] []).

(** A block that withdraws 5 from the key address of [c]. *)
Definition withdrawalFromC : Block.t :=
  Block.mk 3000 [Tx.mk "tx9" [("e0c", 5%Z)] []].

(** A started indexer over the log of the recovery scenario that still
    watches [Y]. *)
Definition watchingY : World :=
  exec (start ;; watch hexRewardAddress "Y" Script)
       (createStakingIndexer recoveryLog []).


(** * Properties *)

(** ** Containers *)

Module JsMapFacts.
Section WithValue.
Variable V : Type.
Implicit Types (m : JsMap.t V) (k : string) (v : V).

Lemma get_set_eq k v m : JsMap.get k (JsMap.set k v m) = Some v.
Proof.
  induction m as [|[k' v'] m IH]; simpl.
  - now rewrite String.eqb_refl.
  - destruct (k =? k') eqn:E; simpl; rewrite E; auto.
Qed.

Lemma get_set_neq k k' v m :
  k <> k' -> JsMap.get k' (JsMap.set k v m) = JsMap.get k' m.
Proof.
  intros N. induction m as [|[k0 v0] m IH]; simpl.
  - destruct (String.eqb_spec k' k); congruence.
  - destruct (String.eqb_spec k k0) as [->|]; simpl.
    + destruct (String.eqb_spec k' k0); congruence.
    + now rewrite IH.
Qed.

Lemma get_delete_eq k m : JsMap.get k (JsMap.delete k m) = None.
Proof.
  induction m as [|[k' v'] m IH]; simpl; auto.
  destruct (k =? k') eqn:E; simpl; auto. now rewrite E.
Qed.

Lemma get_delete_neq k k' m :
  k <> k' -> JsMap.get k' (JsMap.delete k m) = JsMap.get k' m.
Proof.
  intros N. induction m as [|[k0 v0] m IH]; simpl; auto.
  destruct (String.eqb_spec k k0) as [->|]; simpl.
  - destruct (String.eqb_spec k' k0); congruence.
  - now rewrite IH.
Qed.

Lemma has_true k m : JsMap.has k m = true <-> exists v, JsMap.get k m = Some v.
Proof.
  unfold JsMap.has. destruct (JsMap.get k m); split; eauto; try discriminate.
  intros [? ?]; discriminate.
Qed.

Lemma has_false k m : JsMap.has k m = false <-> JsMap.get k m = None.
Proof.
  unfold JsMap.has. destruct (JsMap.get k m); split; congruence.
Qed.

Lemma has_set k k' v m :
  JsMap.has k' (JsMap.set k v m) = (k =? k') || JsMap.has k' m.
Proof.
  unfold JsMap.has. destruct (String.eqb_spec k k') as [->|N].
  - now rewrite get_set_eq.
  - now rewrite get_set_neq.
Qed.

Lemma has_delete k k' m :
  JsMap.has k' (JsMap.delete k m) = negb (k =? k') && JsMap.has k' m.
Proof.
  unfold JsMap.has. destruct (String.eqb_spec k k') as [->|N].
  - now rewrite get_delete_eq.
  - now rewrite get_delete_neq.
Qed.

Lemma get_in k v m : JsMap.get k m = Some v -> In v (JsMap.values m).
Proof.
  induction m as [|[k' v'] m IH]; simpl; try discriminate.
  destruct (k =? k'); intros H; [left; congruence | right; auto].
Qed.
End WithValue.
End JsMapFacts.

Module JsSetFacts.
Lemma has_in k s : JsSet.has k s = true <-> In k s.
Proof.
  unfold JsSet.has. rewrite existsb_exists. split.
  - intros [x [Hin E]]. apply String.eqb_eq in E. now subst.
  - intros Hin. exists k. split; auto. apply String.eqb_refl.
Qed.

Lemma has_add k k' s : JsSet.has k' (JsSet.add k s) = (k =? k') || JsSet.has k' s.
Proof.
  unfold JsSet.add. destruct (JsSet.has k s) eqn:E.
  - destruct (String.eqb_spec k k') as [->|]; simpl; auto.
  - unfold JsSet.has. rewrite existsb_app. simpl.
    rewrite orb_false_r, orb_comm. f_equal. apply String.eqb_sym.
Qed.

Lemma has_add_same k s : JsSet.has k (JsSet.add k s) = true.
Proof. rewrite has_add, String.eqb_refl. reflexivity. Qed.

Lemma has_add_mono k k' s :
  JsSet.has k' s = true -> JsSet.has k' (JsSet.add k s) = true.
Proof. intros H. rewrite has_add, H. apply orb_true_r. Qed.
End JsSetFacts.

(** ** The monad *)

Lemma exec_bind {A B} (c : M A) (k : A -> M B) (w : World) :
  exec (bind c k) w = exec (k (eval c w)) (exec c w).
Proof. unfold exec, eval, bind. now destruct (c w). Qed.

Lemma eval_bind {A B} (c : M A) (k : A -> M B) (w : World) :
  eval (bind c k) w = eval (k (eval c w)) (exec c w).
Proof. unfold exec, eval, bind. now destruct (c w). Qed.

Lemma exec_ret {A} (a : A) (w : World) : exec (ret a) w = w.
Proof. reflexivity. Qed.

Lemma foldM_cons {X A} (x : X) (xs : list X) (acc : A) (body : A -> X -> M A) :
  foldM (x :: xs) acc body =
  bind (body acc x) (fun acc' => foldM xs acc' body).
Proof. reflexivity. Qed.

Lemma forEach_cons {X} (x : X) (xs : list X) (body : X -> M unit) :
  forEach (x :: xs) body = bind (body x) (fun _ => forEach xs body).
Proof. reflexivity. Qed.

Lemma exec_forEach_app {X} (xs ys : list X) (body : X -> M unit) w :
  exec (forEach (xs ++ ys) body) w =
  exec (forEach ys body) (exec (forEach xs body) w).
Proof.
  revert w. induction xs as [|x xs IH]; intros w; simpl; auto.
  now rewrite !exec_bind, IH.
Qed.

(** An invariant of the body of a loop is an invariant of the loop. *)
Lemma forEach_invariant {X} (P : World -> Prop) (xs : list X)
  (body : X -> M unit) :
  (forall x w, In x xs -> P w -> P (exec (body x) w)) ->
  forall w, P w -> P (exec (forEach xs body) w).
Proof.
  induction xs as [|x xs IH]; intros Hbody w Hw; simpl; auto.
  rewrite exec_bind. apply IH.
  - intros y w' Hy. apply Hbody. now right.
  - apply Hbody; auto. now left.
Qed.

Lemma foldM_invariant {X A} (P : World -> Prop) (xs : list X)
  (body : A -> X -> M A) :
  (forall acc x w, In x xs -> P w -> P (exec (body acc x) w)) ->
  forall acc w, P w -> P (exec (foldM xs acc body) w).
Proof.
  induction xs as [|x xs IH]; intros Hbody acc w Hw; simpl; auto.
  rewrite exec_bind. apply IH.
  - intros acc' y w' Hy. apply Hbody. now right.
  - apply Hbody; auto. now left.
Qed.

(** ** The registry under watch, batchWatch and unwatch *)

Section RegistryInvariant.
Variable derive : StakingType -> StakingHash -> RewardAddress.
Variable kind : StakingHash -> StakingType.
Hypothesis derive_injective :
  forall t h t' h', derive t h = derive t' h' -> h = h'.

Lemma inverse_at_kind_empty : inverse_at_kind derive kind JsMap.empty JsMap.empty.
Proof. split; simpl; intros; [split|]; discriminate. Qed.

Lemma inverse_at_kind_set reg rev h :
  inverse_at_kind derive kind reg rev ->
  inverse_at_kind derive kind (JsMap.set h (derive (kind h) h) reg)
                  (JsMap.set (derive (kind h) h) h rev).
Proof.
  intros [Hinv Hkind]. set (a0 := derive (kind h) h). split.
  - intros h' a'. destruct (String.eqb_spec h h') as [<-|Nh].
    + rewrite JsMapFacts.get_set_eq. split.
      * intros E. injection E as <-. apply JsMapFacts.get_set_eq.
      * destruct (String.eqb_spec a0 a') as [<-|Na]; auto.
        rewrite JsMapFacts.get_set_neq by auto. intros E.
        apply Hinv, Hkind in E. unfold a0 in *. congruence.
    + rewrite JsMapFacts.get_set_neq by auto.
      destruct (String.eqb_spec a0 a') as [<-|Na].
      * rewrite JsMapFacts.get_set_eq. split.
        -- intros E. apply Hkind in E. apply derive_injective in E.
           congruence.
        -- congruence.
      * rewrite JsMapFacts.get_set_neq by auto. apply Hinv.
  - intros h' a'. destruct (String.eqb_spec h h') as [<-|Nh].
    + rewrite JsMapFacts.get_set_eq. unfold a0. congruence.
    + rewrite JsMapFacts.get_set_neq by auto. apply Hkind.
Qed.

Lemma watch_inverse_at_kind w h :
  world_inverse_at_kind derive kind w ->
  world_inverse_at_kind derive kind (exec (watch derive h (kind h)) w).
Proof. intros H. now apply inverse_at_kind_set. Qed.

Lemma batchWatch_inverse_at_kind w hs t :
  (forall h, In h hs -> t = kind h) ->
  world_inverse_at_kind derive kind w ->
  world_inverse_at_kind derive kind (exec (batchWatch derive hs t) w).
Proof.
  intros Ht H. unfold batchWatch. rewrite exec_bind.
  assert (G : world_inverse_at_kind derive kind
                (exec (forEach hs (fun hash =>
                   update (fun w => with_registry
                     (JsMap.set hash (derive t hash) (registry w)) w) ;;
                   update (fun w => with_revRegistry
                     (JsMap.set (derive t hash) hash (revRegistry w)) w))) w)).
  { apply forEach_invariant; auto. intros h w' Hin Hw'.
    rewrite (Ht h Hin). now apply inverse_at_kind_set. }
  exact G.
Qed.

Lemma unwatch_registry w h :
  registry (exec (unwatch h) w) = registry w /\
  revRegistry (exec (unwatch h) w) = revRegistry w.
Proof.
  unfold unwatch, exec, bind, read. simpl.
  destruct (JsMap.has h (registry w)); auto.
Qed.

Lemma runCalls_inverse_at_kind cs :
  Forall (sameKind kind) cs ->
  forall w, world_inverse_at_kind derive kind w ->
       world_inverse_at_kind derive kind (exec (runCalls derive cs) w).
Proof.
  intros Hcs. apply forEach_invariant. intros c w Hin Hw.
  rewrite Forall_forall in Hcs. specialize (Hcs c Hin).
  destruct c as [h t|hs t|h]; simpl in *.
  - subst t. now apply watch_inverse_at_kind.
  - now apply batchWatch_inverse_at_kind.
  - rewrite exec_bind, exec_ret. unfold world_inverse_at_kind.
    destruct (unwatch_registry w h) as [-> ->]. exact Hw.
Qed.
End RegistryInvariant.

(** C1, as amended.  From a fresh indexer, after any sequence of watch,
    batchWatch and unwatch calls in which every credential is always watched
    with the same credential kind (the address derivation sending distinct
    credentials to distinct addresses), the forward and the reverse map are
    exact inverses: a credential has address [a] in the forward map if and
    only if [a] points back to it in the reverse map. *)
Theorem registry_inverse_same_kind
  (derive : StakingType -> StakingHash -> RewardAddress)
  (kind : StakingHash -> StakingType)
  (log : list ChainStaking.t) (state : JsMap.t ChainStakingState.t)
  (cs : list RegistryCall) :
  (forall t h t' h', derive t h = derive t' h' -> h = h') ->
  Forall (sameKind kind) cs ->
  registry_inverse (exec (runCalls derive cs) (createStakingIndexer log state)).
Proof.
  intros Hinj Hcs.
  destruct (runCalls_inverse_at_kind Hinj Hcs
              (w := createStakingIndexer log state)
              (inverse_at_kind_empty derive kind)) as [Hinv _].
  exact Hinv.
Qed.

(** C1, as stated, fails: watching a credential again under the other kind
    leaves its first address in the reverse map. *)
Lemma rewatch_other_kind_breaks_inverse :
  ~ registry_inverse
      (exec (runCalls hexRewardAddress
               [CallWatch "c" Key; CallWatch "c" Script])
            (createStakingIndexer [] [])).
Proof.
  intros H. destruct (H "c" "e0c") as [_ Hback].
  vm_compute in Hback. discriminate (Hback eq_refl).
Qed.

Lemma hexRewardAddress_injective t h t' h' :
  hexRewardAddress t h = hexRewardAddress t' h' -> h = h'.
Proof. destruct t, t'; simpl; intros E; now injection E. Qed.

(** The same on a concrete run. *)
Lemma registry_inverse_same_kind_witness :
  registry_inverse
    (exec (runCalls hexRewardAddress
             [CallWatch "c" Script; CallBatchWatch ["c"; "d"] Script;
              CallUnwatch "c"; CallWatch "d" Script])
          (createStakingIndexer [] [])).
Proof.
  apply (@registry_inverse_same_kind hexRewardAddress (fun _ => Script)).
  - exact hexRewardAddress_injective.
  - repeat constructor.
Defined.

(** ** The reload executor *)

Ltac run :=
  unfold exec, eval, bind, ret, read, update, emit, when in *; simpl in *.

Lemma frame_refl w : frame w w.
Proof. repeat split. Qed.

Lemma frame_trans w1 w2 w3 : frame w1 w2 -> frame w2 w3 -> frame w1 w3.
Proof.
  unfold frame. intros (A1 & A2 & A3 & A4 & A5 & A6 & A7)
    (B1 & B2 & B3 & B4 & B5 & B6 & B7).
  repeat split; congruence.
Qed.

Section Executor.
Variable slotFrom : Tip -> Slot.
Variable onReloaded : bool.
Variable client : StateQueryClient.

Lemma doReload_inactive w :
  isActive w = false ->
  exec (doReload slotFrom onReloaded client) w =
  with_toReload JsSet.empty
    (with_effects
       (effects w ++
        [ConsoleWarn (InactiveIgnoredReload
           (if fullReload w then None else Some (JsSet.values (toReload w))))])
       w).
Proof.
  intros H. unfold doReload, clearToReload. run. rewrite H. simpl.
  destruct w as [tr ? ? ? ? ? ? ? ? ?]; simpl in *.
  destruct tr; reflexivity.
Qed.

Lemma doReload_active w :
  isActive w = true ->
  doReload slotFrom onReloaded client w =
  bind takeBatch
    (fun batch =>
       match batch with
       | Some ((_ :: _) as batch) => mergeBatch slotFrom onReloaded client batch
       | _ => ret tt
       end) w.
Proof. intros H. unfold doReload. run. now rewrite H. Qed.

Lemma takeBatch_full w :
  fullReload w = true ->
  takeBatch w =
  (Some (JsMap.values (registry w)),
   with_toReload JsSet.empty
     (with_fullReload false
        (with_effects (effects w ++ [ConsoleLog ReloadingAll]) w))).
Proof.
  intros H. unfold takeBatch, clearToReload. run. rewrite H. simpl.
  destruct w as [tr ? ? ? ? ? ? ? ? ?]; simpl in *.
  destruct tr; reflexivity.
Qed.

Lemma takeBatch_none w :
  fullReload w = false -> toReload w = [] -> takeBatch w = (None, w).
Proof. intros F T. unfold takeBatch. run. now rewrite F, T. Qed.

Lemma takeBatch_selective w :
  fullReload w = false -> toReload w <> [] ->
  let w1 :=
    with_effects
      (effects w ++ [ConsoleLog (Reloading (JsSet.size (toReload w)))]) w in
  takeBatch w =
  (Some (eval (foldM (JsSet.values (toReload w)) [] collectAddress) w1),
   with_toReload JsSet.empty
     (exec (foldM (JsSet.values (toReload w)) [] collectAddress) w1)).
Proof.
  intros F T. unfold takeBatch. run. rewrite F.
  destruct (toReload w) eqn:E; [congruence|]. simpl.
  match goal with |- (let (_, _) := ?c in _) = _ => now destruct c end.
Qed.

(** Collecting the addresses only writes warnings. *)
Lemma collectAddress_only_effects hashes acc w0 w :
  w = with_effects (effects w) w0 ->
  let w' := exec (foldM hashes acc collectAddress) w in
  w' = with_effects (effects w') w0.
Proof.
  intros H. cbv zeta. revert acc w H.
  apply (foldM_invariant (fun w' => w' = with_effects (effects w') w0)).
  intros acc h w _ H. unfold collectAddress. run.
  destruct (JsMap.get h (registry w)) as [a|]; [destruct (truthy a)|];
    simpl; auto; rewrite H; reflexivity.
Qed.

(** Taking the batch touches the pending work and the console only. *)
Lemma takeBatch_state w :
  let w' := exec takeBatch w in
  registry w' = registry w /\ revRegistry w' = revRegistry w /\
  toRemove w' = toRemove w /\ isActive w' = isActive w /\
  willReloadDynamically w' = willReloadDynamically w /\
  staking w' = staking w /\ staking_state w' = staking_state w /\
  fullReload w' = false /\ toReload w' = JsSet.empty.
Proof.
  cbv zeta. destruct (fullReload w) eqn:F.
  - unfold exec. rewrite (takeBatch_full w F). simpl. repeat split.
  - assert (toReload w = [] \/ toReload w <> []) as [T|T]
      by (destruct (toReload w); [left|right]; congruence).
    + unfold exec. rewrite takeBatch_none by auto. simpl. repeat split; auto.
    + unfold exec. rewrite takeBatch_selective by congruence.
      cbv zeta. set (w1 := with_effects _ w).
      pose proof (@collectAddress_only_effects
                    (JsSet.values (toReload w)) [] w w1 eq_refl) as G.
      cbv zeta in G. rewrite G. simpl. repeat split; auto.
Qed.

(** One iteration of the merge: the credential leaves both maps when it is
    pending removal, and nothing else of the state changes. *)
Lemma mergeEntry_state tip acc h e w :
  let w' := exec (mergeEntry slotFrom tip acc (h, e)) w in
  let address :=
    match JsMap.get h (registry w) with Some a => a | None => "" end in
  frame w w' /\
  registry w' =
    (if JsSet.has h (toRemove w) then JsMap.delete h (registry w)
     else registry w) /\
  revRegistry w' =
    (if JsSet.has h (toRemove w) then JsMap.delete address (revRegistry w)
     else revRegistry w) /\
  exists logs, effects w' = effects w ++ logs /\ forallb isConsole logs = true.
Proof.
  unfold mergeEntry, frame. run.
  destruct (truthy _), (JsSet.has h (toRemove w)); simpl;
    repeat split; auto;
    try (rewrite <- !app_assoc; simpl); eexists;
    (split; [try reflexivity; symmetry; apply app_nil_r | reflexivity]).
Qed.

Lemma mergeLoop_frame tip resp acc w :
  frame w (exec (foldM resp acc (mergeEntry slotFrom tip)) w).
Proof.
  revert acc w. induction resp as [|[h e] resp IH]; intros acc w.
  - apply frame_refl.
  - rewrite foldM_cons, exec_bind. eapply frame_trans; [|apply IH].
    apply (mergeEntry_state tip acc h e w).
Qed.

Lemma mergeLoop_effects tip resp acc w :
  exists logs,
    effects (exec (foldM resp acc (mergeEntry slotFrom tip)) w) =
    effects w ++ logs /\ forallb isConsole logs = true.
Proof.
  revert acc w. induction resp as [|[h e] resp IH]; intros acc w.
  - exists []. simpl. now rewrite app_nil_r.
  - rewrite foldM_cons, exec_bind.
    destruct (mergeEntry_state tip acc h e w) as (_ & _ & _ & l1 & E1 & C1).
    destruct (IH (eval (mergeEntry slotFrom tip acc (h, e)) w)
                 (exec (mergeEntry slotFrom tip acc (h, e)) w))
      as (l2 & E2 & C2).
    exists (l1 ++ l2). rewrite E2, E1, app_assoc. split; auto.
    rewrite forallb_app, C1, C2. reflexivity.
Qed.

(** The merge only ever deletes from the maps. *)
Lemma mergeLoop_shrinks tip resp acc w k :
  let w' := exec (foldM resp acc (mergeEntry slotFrom tip)) w in
  (JsMap.get k (registry w) = None -> JsMap.get k (registry w') = None) /\
  (JsMap.get k (revRegistry w) = None -> JsMap.get k (revRegistry w') = None).
Proof.
  cbv zeta. revert acc w. induction resp as [|[h e] resp IH]; intros acc w.
  - simpl. auto.
  - rewrite foldM_cons, exec_bind.
    destruct (mergeEntry_state tip acc h e w) as (_ & R & V & _).
    cbv zeta in R, V.
    set (w1 := exec (mergeEntry slotFrom tip acc (h, e)) w) in *.
    destruct (IH (eval (mergeEntry slotFrom tip acc (h, e)) w) w1) as [I1 I2].
    split; intros N.
    + apply I1. rewrite R. destruct (JsSet.has h (toRemove w)); auto.
      destruct (String.eqb_spec h k) as [->|D].
      * apply JsMapFacts.get_delete_eq.
      * now rewrite JsMapFacts.get_delete_neq.
    + apply I2. rewrite V. destruct (JsSet.has h (toRemove w)); auto.
      match goal with |- JsMap.get k (JsMap.delete ?a _) = None =>
        destruct (String.eqb_spec a k) as [->|D] end.
      * apply JsMapFacts.get_delete_eq.
      * now rewrite JsMapFacts.get_delete_neq.
Qed.

(** A credential the answer does not mention keeps its forward entry. *)
Lemma mergeLoop_untouched tip resp acc w c :
  ~ In c (map fst resp) ->
  JsMap.get c (registry (exec (foldM resp acc (mergeEntry slotFrom tip)) w)) =
  JsMap.get c (registry w).
Proof.
  revert acc w. induction resp as [|[h e] resp IH]; intros acc w N; auto.
  simpl in N. rewrite foldM_cons, exec_bind, IH by tauto.
  destruct (mergeEntry_state tip acc h e w) as (_ & R & _). cbv zeta in R.
  rewrite R. destruct (JsSet.has h (toRemove w)); auto.
  apply JsMapFacts.get_delete_neq. tauto.
Qed.

(** A credential pending removal that the answer mentions leaves the forward
    map, and its address the reverse map. *)
Lemma mergeLoop_removes tip resp acc w c :
  In c (map fst resp) ->
  JsSet.has c (toRemove w) = true ->
  let w' := exec (foldM resp acc (mergeEntry slotFrom tip)) w in
  JsMap.get c (registry w') = None /\
  (forall a, JsMap.get c (registry w) = Some a ->
             JsMap.get a (revRegistry w') = None).
Proof.
  cbv zeta. revert acc w. induction resp as [|[h e] resp IH];
    intros acc w Hin Hrm; [contradiction|].
  rewrite foldM_cons, exec_bind.
  destruct (mergeEntry_state tip acc h e w) as (F & R & V & _).
  cbv zeta in F, R, V.
  set (w1 := exec (mergeEntry slotFrom tip acc (h, e)) w) in *.
  set (acc1 := eval (mergeEntry slotFrom tip acc (h, e)) w).
  destruct (String.eqb_spec h c) as [->|D].
  - rewrite Hrm in R, V.
    destruct (mergeLoop_shrinks tip resp acc1 w1 c) as [S1 _].
    split.
    + apply S1. rewrite R. apply JsMapFacts.get_delete_eq.
    + intros a Ha. rewrite Ha in V.
      destruct (mergeLoop_shrinks tip resp acc1 w1 a) as [_ S2].
      apply S2. rewrite V. apply JsMapFacts.get_delete_eq.
  - simpl in Hin. destruct Hin as [E|Hin]; [congruence|].
    assert (Hrm1 : JsSet.has c (toRemove w1) = true).
    { destruct F as (_ & T & _). now rewrite T. }
    destruct (IH acc1 w1 Hin Hrm1) as [I1 I2]. split; auto.
    intros a Ha. apply I2. rewrite R.
    destruct (JsSet.has h (toRemove w)); auto.
    now rewrite JsMapFacts.get_delete_neq.
Qed.

(** Fetch, merge, persist, report: the state and the effects afterwards. *)
Lemma mergeBatch_state b w :
  let tip := ledgerTip client in
  let loop :=
    foldM (delegationsAndRewards client b) [] (mergeEntry slotFrom tip) in
  let w0 :=
    with_effects
      ((effects w ++ [ClientLedgerTip]) ++ [ClientDelegationsAndRewards b]) w in
  let wl := exec loop w0 in
  let rows := eval loop w0 in
  let w' := exec (mergeBatch slotFrom onReloaded client b) w in
  registry w' = registry wl /\ revRegistry w' = revRegistry wl /\
  frame w (with_staking_state (staking_state w) w') /\
  staking_state w' =
    (if Nat.eqb (length rows) 0 then staking_state w
     else upsertRows rows (staking_state w)) /\
  effects w' =
    effects wl ++
    (if Nat.eqb (length rows) 0 then [] else [SqlUpsertStakingState rows]) ++
    [ConsoleLog (Reloaded (length b) tip)] ++
    (if onReloaded then [OnReloaded b (fullReload w)] else []).
Proof.
  cbv zeta.
  pose proof (mergeLoop_frame (ledgerTip client)
    (delegationsAndRewards client b) []
    (with_effects
      ((effects w ++ [ClientLedgerTip]) ++ [ClientDelegationsAndRewards b]) w))
    as F.
  unfold mergeBatch, sqlUpsertStakingState, frame in *. run.
  destruct (foldM _ _ _ _) as [rows wl]. simpl in *.
  destruct F as (F1 & F2 & F3 & F4 & F5 & F6 & F7).
  destruct (Nat.eqb (length rows) 0), onReloaded; simpl;
    repeat split; auto; rewrite <- ?app_assoc; simpl; congruence.
Qed.

Lemma exec_doReload_active w :
  isActive w = true ->
  exec (doReload slotFrom onReloaded client) w =
  exec (match eval takeBatch w with
        | Some ((_ :: _) as b) => mergeBatch slotFrom onReloaded client b
        | _ => ret tt
        end) (exec takeBatch w).
Proof.
  intros H. unfold exec at 1. rewrite (doReload_active w H).
  apply (exec_bind takeBatch).
Qed.

(** No reload execution changes the removal set. *)
Lemma doReload_toRemove w :
  toRemove (exec (doReload slotFrom onReloaded client) w) = toRemove w.
Proof.
  destruct (isActive w) eqn:A.
  - rewrite exec_doReload_active by auto.
    destruct (takeBatch_state w) as (_ & _ & T & _). cbv zeta in T.
    destruct (eval takeBatch w) as [[|a b]|]; simpl; auto.
    destruct (mergeBatch_state (a :: b) (exec takeBatch w))
      as (_ & _ & (_ & T' & _) & _).
    simpl in T'. congruence.
  - now rewrite doReload_inactive.
Qed.

(** A reload whose results do not mention [c] keeps its forward entry. *)
Lemma doReload_untouched w c :
  (forall b, eval takeBatch w = Some b -> ~ In c (responseKeys client b)) ->
  JsMap.get c (registry (exec (doReload slotFrom onReloaded client) w)) =
  JsMap.get c (registry w).
Proof.
  intros N. destruct (isActive w) eqn:A.
  - rewrite exec_doReload_active by auto.
    destruct (takeBatch_state w) as (R & _). cbv zeta in R.
    destruct (eval takeBatch w) as [[|a b]|] eqn:E;
      rewrite ?exec_ret; try (now rewrite R).
    destruct (mergeBatch_state (a :: b) (exec takeBatch w)) as (R' & _).
    cbv zeta in R'. rewrite R', mergeLoop_untouched by (apply N; auto).
    simpl. now rewrite R.
  - now rewrite doReload_inactive.
Qed.

(** A reload whose results mention a credential pending removal finalizes
    the removal from both maps. *)
Lemma doReload_removes w c b :
  isActive w = true ->
  eval takeBatch w = Some b -> b <> [] ->
  In c (responseKeys client b) ->
  JsSet.has c (toRemove w) = true ->
  let w' := exec (doReload slotFrom onReloaded client) w in
  JsMap.get c (registry w') = None /\
  (forall a, JsMap.get c (registry w) = Some a ->
             JsMap.get a (revRegistry w') = None).
Proof.
  intros A E Hb Hin Hrm. cbv zeta. rewrite exec_doReload_active by auto.
  rewrite E. destruct b as [|a0 b]; [congruence|].
  destruct (takeBatch_state w) as (R & _ & T & _). cbv zeta in R, T.
  destruct (mergeBatch_state (a0 :: b) (exec takeBatch w)) as (R' & V' & _).
  cbv zeta in R', V'. rewrite R', V'.
  match goal with |- context [exec (foldM ?resp ?acc _) ?w0] =>
    destruct (@mergeLoop_removes (ledgerTip client) resp acc w0 c Hin)
      as [G1 G2] end.
  - simpl. congruence.
  - split; auto. intros a Ha. apply G2. simpl. congruence.
Qed.

End Executor.

(** C2.  A reload execution whose results mention a credential [c] pending
    removal deletes [c] from the forward map and its address from the
    reverse map, as the claim says, but leaves [c] in the removal set: no
    statement of [doReload] deletes from [toRemove]. *)
Theorem doReload_leaves_removed_credential_pending
  (slotFrom : Tip -> Z) (onReloaded : bool) (client : StateQueryClient)
  (w : World) (c : string) (b : list string) :
  isActive w = true ->
  eval takeBatch w = Some b -> b <> [] ->
  In c (responseKeys client b) ->
  JsSet.has c (toRemove w) = true ->
  let w' := exec (doReload slotFrom onReloaded client) w in
  JsMap.has c (registry w') = false /\
  (forall a, JsMap.get c (registry w) = Some a ->
             JsMap.has a (revRegistry w') = false) /\
  JsSet.has c (toRemove w') = true.
Proof.
  intros A E Hb Hin Hrm. cbv zeta.
  destruct (@doReload_removes slotFrom onReloaded client w c b A E Hb Hin Hrm)
    as [G1 G2].
  repeat split.
  - now apply JsMapFacts.has_false.
  - intros a Ha. apply JsMapFacts.has_false. now apply G2.
  - now rewrite doReload_toRemove.
Qed.

(** The same on a concrete run. *)
Lemma doReload_leaves_removed_credential_pending_witness :
  let w' := exec (doReload sampleSlotFrom true sampleClient) removingC1 in
  JsMap.has "c1" (registry w') = false /\
  JsMap.has "f0c1" (revRegistry w') = false /\
  JsSet.has "c1" (toRemove w') = true.
Proof.
  destruct (@doReload_leaves_removed_credential_pending
              sampleSlotFrom true sampleClient removingC1 "c1" ["f0c1"])
    as (G1 & G2 & G3); try reflexivity.
  - discriminate.
  - simpl. auto.
  - cbv zeta. repeat split; auto.
Defined.

(** The consequence: a credential watched again after its removal is dropped
    by the next reload that mentions it, without any unwatch. *)
Example stale_removal_drops_rewatched_credential :
  let removed := exec (doReload sampleSlotFrom true sampleClient) removingC1 in
  let rewatched :=
    exec (watch hexRewardAddress "c1" Script ;; reload None) removed in
  eval (isHashWatched "c1") rewatched = true /\
  eval (isHashWatched "c1")
       (exec (doReload sampleSlotFrom true sampleClient) rewatched) = false.
Proof. vm_compute. split; reflexivity. Qed.

(** C3.  An execution that was a full reload hands the callback [false]:
    [onReloaded] receives the live [fullReload] flag, which the execution
    reset when it took its batch, and not [wasFullReload].  The callback is
    the last effect, once, after the upsert. *)
Theorem doReload_full_reload_reports_false
  (slotFrom : Tip -> Z) (client : StateQueryClient) (w : World) :
  isActive w = true ->
  fullReload w = true ->
  registry w <> [] ->
  let batch := JsMap.values (registry w) in
  exists logs rows,
    forallb isConsole logs = true /\
    effects (exec (doReload slotFrom true client) w) =
    effects w ++
    [ConsoleLog ReloadingAll; ClientLedgerTip;
     ClientDelegationsAndRewards batch] ++
    logs ++
    (if Nat.eqb (length rows) 0 then [] else [SqlUpsertStakingState rows]) ++
    [ConsoleLog (Reloaded (length batch) (ledgerTip client));
     OnReloaded batch false].
Proof.
  intros A F N. cbv zeta. rewrite exec_doReload_active by auto.
  unfold exec at 2, eval. rewrite (takeBatch_full w F). simpl fst. simpl snd.
  destruct (registry w) as [|[h a] reg] eqn:R; [congruence|]. simpl JsMap.values.
  set (w1 := with_toReload _ _).
  destruct (@mergeBatch_state slotFrom true client (a :: JsMap.values reg) w1)
    as (_ & _ & _ & _ & E).
  cbv zeta in E. rewrite E. clear E.
  match goal with |- context [exec (foldM ?resp ?acc _) ?w0] =>
    destruct (@mergeLoop_effects slotFrom (ledgerTip client) resp acc w0)
      as (logs & EL & CL);
    exists logs, (eval (foldM resp acc (mergeEntry slotFrom (ledgerTip client))) w0)
  end.
  split; auto. rewrite EL. simpl. rewrite <- !app_assoc. reflexivity.
Qed.

(** The same on a concrete run. *)
Lemma doReload_full_reload_reports_false_witness :
  In (OnReloaded ["f0c1"] false)
     (effects (exec (doReload sampleSlotFrom true sampleClient)
                    fullReloadPending)) /\
  fullReload fullReloadPending = true.
Proof.
  destruct (@doReload_full_reload_reports_false
              sampleSlotFrom sampleClient fullReloadPending)
    as (logs & rows & _ & E); try reflexivity.
  - discriminate.
  - split; [|reflexivity]. rewrite E.
    apply in_or_app. right. apply in_or_app. right.
    apply in_or_app. right. apply in_or_app. right.
    simpl. auto.
Defined.




(** C5.  [unwatch] of a watched credential answers [true] and leaves both
    maps as they are; the credential stays resolvable through every reload
    whose results do not mention it, and is no longer watched after a reload
    whose results do.  [unwatch] of a credential that is not in the forward
    map answers [false] and changes no state. *)
Theorem unwatch_defers_removal
  (slotFrom : Tip -> Z) (onReloaded : bool) (client : StateQueryClient)
  (w : World) (c : string) :
  (JsMap.has c (registry w) = true ->
   let w1 := exec (unwatch c) w in
   eval (unwatch c) w = true /\
   registry w1 = registry w /\ revRegistry w1 = revRegistry w /\
   eval (fromHash c) w1 = eval (fromHash c) w /\
   eval (isHashWatched c) w1 = true /\
   JsSet.has c (toRemove w1) = true /\
   (forall w2,
      (forall b, eval takeBatch w2 = Some b ->
                 ~ In c (responseKeys client b)) ->
      let w3 := exec (doReload slotFrom onReloaded client) w2 in
      eval (fromHash c) w3 = eval (fromHash c) w2 /\
      eval (isHashWatched c) w3 = eval (isHashWatched c) w2) /\
   (forall w2 b,
      JsSet.has c (toRemove w2) = true ->
      isActive w2 = true ->
      eval takeBatch w2 = Some b -> b <> [] ->
      In c (responseKeys client b) ->
      eval (isHashWatched c)
           (exec (doReload slotFrom onReloaded client) w2) = false)) /\
  (JsMap.has c (registry w) = false ->
   eval (unwatch c) w = false /\
   exec (unwatch c) w = with_effects (effects w ++ [ConsoleWarn (NotFound c)]) w).
Proof.
  split.
  - intros H. cbv zeta.
    destruct (unwatch_registry w c) as [R V].
    repeat split; auto.
    + unfold unwatch. run. now rewrite H.
    + unfold fromHash. run. now rewrite R.
    + unfold isHashWatched. run. now rewrite R.
    + unfold unwatch. run. rewrite H. simpl. apply JsSetFacts.has_add_same.
    + unfold fromHash. run.
      now apply (@doReload_untouched slotFrom onReloaded client w2 c).
    + unfold isHashWatched, JsMap.has. run.
      change (snd (doReload slotFrom onReloaded client w2))
        with (exec (doReload slotFrom onReloaded client) w2).
      now rewrite (@doReload_untouched slotFrom onReloaded client w2 c).
    + intros w2 b Hrm A E Hb Hin. unfold isHashWatched. run.
      apply JsMapFacts.has_false.
      now apply (@doReload_removes slotFrom onReloaded client w2 c b).
  - intros H. unfold unwatch. run. now rewrite H.
Qed.

(** The same on a concrete run. *)
Lemma unwatch_defers_removal_witness :
  eval (unwatch "c1") watchingC1 = true /\
  eval (fromHash "c1") (exec (unwatch "c1") watchingC1) = Some "f0c1" /\
  eval (isHashWatched "c1")
       (exec (doReload sampleSlotFrom true sampleClient) removingC1) = false /\
  eval (unwatch "c2") watchingC1 = false.
Proof.
  destruct (@unwatch_defers_removal sampleSlotFrom true sampleClient
              watchingC1 "c1") as [Hwatched _].
  destruct (@unwatch_defers_removal sampleSlotFrom true sampleClient
              watchingC1 "c2") as [_ Hunknown].
  destruct (Hwatched eq_refl) as (G1 & _ & _ & G2 & _ & _ & _ & G3).
  destruct (Hunknown eq_refl) as (G4 & _).
  split; [exact G1|]. split; [rewrite G2; reflexivity|].
  split; [|exact G4].
  apply (G3 removingC1 ["f0c1"]); try reflexivity.
  - discriminate.
  - simpl. auto.
Defined.

(** ** The reload scheduler *)

Lemma reload_absorbed hashes w :
  fullReload w = true -> reload hashes w = (tt, w).
Proof. intros F. unfold reload. run. now rewrite F. Qed.

Lemma reload_all_sets_flag w :
  let w' := exec (reload None) w in
  fullReload w' = true /\ registry w' = registry w /\
  isActive w' = isActive w.
Proof.
  cbv zeta. unfold reload. run.
  destruct (fullReload w) eqn:F; simpl; auto.
Qed.

(** C6.  Once the full-reload flag is set, a further [reload] call, with
    [null] or with credentials, changes nothing at all; the next execution
    takes as its batch every address of the registry and fetches it.  In
    particular [reload(null)] followed by [reload([c])] leaves a full reload
    pending. *)
Theorem full_reload_absorbs_requests
  (slotFrom : Tip -> Z) (onReloaded : bool) (client : StateQueryClient)
  (w : World) :
  fullReload w = true ->
  (forall hashes, reload hashes w = (tt, w)) /\
  (forall requests, exec (forEach requests reload) w = w) /\
  (isActive w = true ->
   eval takeBatch w = Some (JsMap.values (registry w)) /\
   (registry w <> [] ->
    In (ClientDelegationsAndRewards (JsMap.values (registry w)))
       (effects (exec (doReload slotFrom onReloaded client) w)))) /\
  (forall w0 c,
     let w1 := exec (reload None ;; reload (Some [c])) w0 in
     w1 = exec (reload None) w0 /\
     fullReload w1 = true /\
     eval takeBatch w1 = Some (JsMap.values (registry w0))).
Proof.
  intros F. split; [|split; [|split]].
  - intros hashes. now apply reload_absorbed.
  - intros requests. induction requests as [|r rs IH]; auto.
    rewrite forEach_cons, exec_bind. unfold exec at 2.
    rewrite reload_absorbed by auto. exact IH.
  - intros A. split.
    + unfold eval. now rewrite takeBatch_full.
    + intros N. rewrite exec_doReload_active by auto.
      unfold exec at 2, eval. rewrite (takeBatch_full w F).
      simpl fst. simpl snd.
      destruct (registry w) as [|[h a] reg] eqn:R; [congruence|].
      simpl JsMap.values. set (w1 := with_toReload _ _).
      destruct (@mergeBatch_state slotFrom onReloaded client
                  (a :: JsMap.values reg) w1) as (_ & _ & _ & _ & E).
      cbv zeta in E. rewrite E. clear E.
      match goal with |- context [exec (foldM ?resp ?acc _) ?w0] =>
        destruct (@mergeLoop_effects slotFrom (ledgerTip client) resp acc w0)
          as (logs & EL & _)
      end.
      rewrite EL. simpl. rewrite !in_app_iff. simpl. auto.
  - intros w0 c. cbv zeta. rewrite exec_bind.
    destruct (reload_all_sets_flag w0) as (F1 & R1 & _). cbv zeta in F1, R1.
    assert (E : exec (reload (Some [c])) (exec (reload None) w0) =
                exec (reload None) w0).
    { unfold exec at 1. now rewrite reload_absorbed. }
    rewrite E. repeat split; auto.
    unfold eval. rewrite takeBatch_full by auto. simpl. now rewrite R1.
Qed.

(** The same on a concrete run. *)
Lemma full_reload_absorbs_requests_witness :
  exec (forEach [None; Some ["c1"]; Some ["c2"; "c1"]] reload)
       fullReloadPending = fullReloadPending /\
  eval takeBatch fullReloadPending = Some ["f0c1"].
Proof.
  destruct (@full_reload_absorbs_requests sampleSlotFrom true sampleClient
              fullReloadPending eq_refl) as (_ & G1 & G2 & _).
  split; [apply G1|]. destruct (G2 eq_refl) as [G _]. exact G.
Defined.

(** ** Clearing *)

(** C10.  After [clear] both maps are empty, so no credential and no address
    is watched, both pending sets are empty and the full-reload flag is
    down, whatever the state before; the two tables are as they were and
    nothing is sent to the database. *)
Theorem clear_resets_memory (w : World) :
  let w' := exec clear w in
  registry w' = JsMap.empty /\ revRegistry w' = JsMap.empty /\
  (forall h, eval (isHashWatched h) w' = false) /\
  (forall a, eval (isAddressWatched a) w' = false) /\
  toReload w' = JsSet.empty /\ toRemove w' = JsSet.empty /\
  fullReload w' = false /\
  staking w' = staking w /\ staking_state w' = staking_state w /\
  effects w' = effects w ++ [QueuePause; QueueResume; ConsoleLog Clear].
Proof.
  cbv zeta. unfold clear, isHashWatched, isAddressWatched. run.
  rewrite <- !app_assoc. repeat split.
Qed.

(** ** The event extractor *)

Lemma deregistered_app l1 l2 :
  deregistered (l1 ++ l2) = deregistered l1 ++ deregistered l2.
Proof. apply flat_map_app. Qed.

Lemma deregistered_withdrawals w slot txId ws :
  deregistered (withdrawalActions w slot txId ws) = [].
Proof.
  induction ws as [|[a amt] ws IH]; auto.
  unfold withdrawalActions in *. simpl. rewrite deregistered_app, IH.
  destruct (JsMap.get a (revRegistry w)) as [h|]; auto.
  destruct (truthy h); auto.
Qed.

Lemma unwatchAll_app l1 l2 w :
  exec (unwatchAll (l1 ++ l2)) w = exec (unwatchAll l2) (exec (unwatchAll l1) w).
Proof. apply exec_forEach_app. Qed.

(** Unwatching touches the removal set and the console only. *)
Lemma unwatchAll_state hashes w :
  let w' := exec (unwatchAll hashes) w in
  registry w' = registry w /\ revRegistry w' = revRegistry w /\
  toReload w' = toReload w /\ fullReload w' = fullReload w /\
  willReloadDynamically w' = willReloadDynamically w /\
  isActive w' = isActive w /\
  staking w' = staking w /\ staking_state w' = staking_state w /\
  exists logs, effects w' = effects w ++ logs /\ forallb isConsole logs = true.
Proof.
  cbv zeta. revert w. induction hashes as [|h hs IH]; intros w.
  - simpl. repeat split. exists []. now rewrite app_nil_r.
  - unfold unwatchAll in *. rewrite forEach_cons, exec_bind.
    specialize (IH (exec (_ <- unwatch h ;; ret tt) w)).
    destruct IH as (I1 & I2 & I3 & I4 & I5 & I6 & I7 & I8 & l2 & E2 & C2).
    rewrite I1, I2, I3, I4, I5, I6, I7, I8, E2.
    unfold unwatch. run.
    destruct (JsMap.has h (registry w)); simpl; repeat split;
      eexists; rewrite <- app_assoc; (split; [reflexivity|]); simpl; auto.
Qed.

Lemma withdrawalActions_ext w w' slot txId ws :
  revRegistry w' = revRegistry w ->
  withdrawalActions w' slot txId ws = withdrawalActions w slot txId ws.
Proof. intros E. unfold withdrawalActions. now rewrite E. Qed.

Lemma certificateActions_ext w w' slot txId cert :
  registry w' = registry w ->
  certificateActions w' slot txId cert = certificateActions w slot txId cert.
Proof. intros E. unfold certificateActions. now rewrite E. Qed.

Lemma scanWithdrawals_run slot txId ws events w :
  foldM ws events (scanWithdrawal slot txId) w =
  (events ++ withdrawalActions w slot txId ws, w).
Proof.
  revert events. induction ws as [|[a amt] ws IH]; intros events.
  - simpl. now rewrite app_nil_r.
  - rewrite foldM_cons. unfold bind at 1.
    replace (scanWithdrawal slot txId events (a, amt) w)
      with (events ++ withdrawalActions w slot txId [(a, amt)], w).
    + rewrite IH, <- app_assoc. unfold withdrawalActions. simpl.
      now rewrite app_nil_r.
    + unfold scanWithdrawal, withdrawalActions, fromAddress. run.
      destruct (JsMap.get a (revRegistry w)) as [h|];
        [destruct (truthy h)|]; simpl; now rewrite ?app_nil_r.
Qed.

Lemma scanCertificate_run slot txId events cert w :
  scanCertificate slot txId events cert w =
  (events ++ certificateActions w slot txId cert,
   exec (unwatchAll (deregistered (certificateActions w slot txId cert))) w).
Proof.
  destruct cert as [h|h p|h|];
    unfold scanCertificate, certificateActions, isHashWatched, unwatchAll,
      unwatch; run;
    try (destruct (JsMap.has h (registry w)) eqn:W); simpl;
    rewrite ?app_nil_r; try reflexivity.
  rewrite W. run. now rewrite W.
Qed.

Lemma scanCertificates_run slot txId certs w events w' :
  registry w' = registry w ->
  foldM certs events (scanCertificate slot txId) w' =
  (events ++ flat_map (certificateActions w slot txId) certs,
   exec (unwatchAll
           (deregistered (flat_map (certificateActions w slot txId) certs)))
        w').
Proof.
  revert events w'. induction certs as [|c certs IH]; intros events w' R.
  - simpl. now rewrite app_nil_r.
  - rewrite foldM_cons. unfold bind at 1. rewrite scanCertificate_run.
    rewrite (@certificateActions_ext w w' slot txId c R).
    rewrite IH.
    + simpl flat_map. rewrite deregistered_app, unwatchAll_app.
      now rewrite <- app_assoc.
    + destruct (unwatchAll_state
                  (deregistered (certificateActions w slot txId c)) w')
        as (R' & _).
      cbv zeta in R'. congruence.
Qed.

(** The two loops of the handler compute [blockActions] and call [unwatch]
    once for every deregister action. *)
Lemma extractEvents_run block w :
  extractEvents block w =
  (blockActions w block,
   exec (unwatchAll (deregistered (blockActions w block))) w).
Proof.
  unfold extractEvents, blockActions.
  set (slot := Block.slot block).
  assert (G : forall txs events w',
    registry w' = registry w -> revRegistry w' = revRegistry w ->
    foldM txs events (scanTx slot) w' =
    (events ++ flat_map (txActions w slot) txs,
     exec (unwatchAll (deregistered (flat_map (txActions w slot) txs))) w')).
  { induction txs as [|tx txs IH]; intros events w' R V.
    - simpl. now rewrite app_nil_r.
    - rewrite foldM_cons. unfold bind at 1. unfold scanTx at 1.
      unfold bind at 1.
      rewrite scanWithdrawals_run, (@withdrawalActions_ext w w' _ _ _ V).
      rewrite (@scanCertificates_run slot (Tx.id tx) (Tx.certificates tx)
                 w _ w' R).
      destruct (unwatchAll_state
                  (deregistered
                     (flat_map (certificateActions w slot (Tx.id tx))
                        (Tx.certificates tx))) w') as (R' & V' & _).
      cbv zeta in R', V'.
      rewrite IH by congruence.
      simpl flat_map.
      change (txActions w slot tx)
        with (withdrawalActions w slot (Tx.id tx) (Tx.withdrawals tx) ++
              flat_map (certificateActions w slot (Tx.id tx))
                (Tx.certificates tx)).
      rewrite !deregistered_app, deregistered_withdrawals, !unwatchAll_app.
      simpl app. now rewrite <- !app_assoc. }
  now apply (G (Block.body block) [] w).
Qed.

Lemma truthy_nonempty h : h <> "" -> truthy h = true.
Proof.
  intros N. unfold truthy. destruct (String.eqb_spec h ""); simpl; congruence.
Qed.

(** On a sound reverse map the loops compute what the specification says. *)
Lemma blockActions_spec w block :
  reverse_sound w -> blockActions w block = specBlockActions w block.
Proof.
  intros S. unfold blockActions, specBlockActions. apply flat_map_ext.
  intros tx. unfold txActions. f_equal.
  unfold withdrawalActions, specWithdrawalActions. apply flat_map_ext.
  intros [a amt]. destruct (JsMap.get a (revRegistry w)) as [h|] eqn:E; auto.
  destruct (S a h E) as [N W]. now rewrite W, truthy_nonempty.
Qed.

Lemma certificateActions_watched w slot txId cert e :
  In e (certificateActions w slot txId cert) ->
  JsMap.has (ChainStaking.hash e) (registry w) = true.
Proof.
  destruct cert as [h|h p|h|]; simpl; try tauto;
    destruct (JsMap.has h (registry w)) eqn:W; simpl;
    intros H; try contradiction; destruct H as [<-|[]]; exact W.
Qed.

Lemma blockActions_watched w block e :
  reverse_sound w ->
  In e (blockActions w block) ->
  JsMap.has (ChainStaking.hash e) (registry w) = true.
Proof.
  intros S H. unfold blockActions in H. apply in_flat_map in H.
  destruct H as (tx & _ & H). unfold txActions in H.
  apply in_app_or in H. destruct H as [H|H].
  - unfold withdrawalActions in H. apply in_flat_map in H.
    destruct H as ([a amt] & _ & H).
    destruct (JsMap.get a (revRegistry w)) as [h|] eqn:E; [|contradiction].
    destruct (S a h E) as [_ W].
    destruct (truthy h); [|contradiction].
    destruct H as [<-|[]]. exact W.
  - apply in_flat_map in H. destruct H as (cert & _ & H).
    now apply certificateActions_watched in H.
Qed.

Lemma deregistered_watched w block h :
  In h (deregistered (blockActions w block)) ->
  JsMap.has h (registry w) = true.
Proof.
  intros H. unfold deregistered in H. apply in_flat_map in H.
  destruct H as (e & He & H).
  destruct (ChainStaking.action e) eqn:A; try contradiction.
  destruct H as [<-|[]].
  unfold blockActions in He. apply in_flat_map in He.
  destruct He as (tx & _ & He). unfold txActions in He.
  apply in_app_or in He. destruct He as [He|He].
  - unfold withdrawalActions in He. apply in_flat_map in He.
    destruct He as ([a amt] & _ & He).
    destruct (JsMap.get a (revRegistry w)) as [h|]; [|contradiction].
    destruct (truthy h); [|contradiction].
    destruct He as [<-|[]]. discriminate.
  - apply in_flat_map in He. destruct He as (cert & _ & He).
    now apply certificateActions_watched in He.
Qed.

(** [unwatch] of a watched credential puts it in the removal set. *)
Lemma unwatchAll_marks hashes w h :
  In h hashes -> JsMap.has h (registry w) = true ->
  JsSet.has h (toRemove (exec (unwatchAll hashes) w)) = true.
Proof.
  assert (Keep : forall hs w', JsSet.has h (toRemove w') = true ->
            JsSet.has h (toRemove (exec (unwatchAll hs) w')) = true).
  { induction hs as [|x hs IH]; intros w' H; auto.
    unfold unwatchAll in *. rewrite forEach_cons, exec_bind. apply IH.
    unfold unwatch. run. destruct (JsMap.has x (registry w')); simpl; auto.
    now apply JsSetFacts.has_add_mono. }
  revert w. induction hashes as [|x hs IH]; intros w Hin W; [contradiction|].
  unfold unwatchAll in *. rewrite forEach_cons, exec_bind.
  destruct Hin as [->|Hin].
  - apply Keep. unfold unwatch. run. rewrite W. simpl.
    apply JsSetFacts.has_add_same.
  - apply IH; auto. unfold unwatch. run.
    destruct (JsMap.has x (registry w)); simpl; auto.
Qed.

Lemma watchingC1_reverse_sound : reverse_sound watchingC1.
Proof.
  intros a h E. change (revRegistry watchingC1) with [("f0c1", "c1")] in E.
  simpl in E. destruct (a =? "f0c1"); [|discriminate].
  injection E as <-. split; [discriminate | reflexivity].
Qed.

(** The credential of a withdraw action is the answer of the reverse map
    for an address of the block, and is not empty; the credential of any
    other action is in the forward map. *)
Lemma blockActions_origin w block e :
  In e (blockActions w block) ->
  match ChainStaking.action e with
  | Withdraw amount =>
      ChainStaking.hash e <> "" /\
      exists tx address,
        In tx (Block.body block) /\
        In (address, amount) (Tx.withdrawals tx) /\
        JsMap.get address (revRegistry w) = Some (ChainStaking.hash e)
  | _ => JsMap.has (ChainStaking.hash e) (registry w) = true
  end.
Proof.
  intros H. unfold blockActions in H. apply in_flat_map in H.
  destruct H as (tx & Htx & H). unfold txActions in H.
  apply in_app_or in H. destruct H as [H|H].
  - unfold withdrawalActions in H. apply in_flat_map in H.
    destruct H as ([a amt] & Ha & H).
    destruct (JsMap.get a (revRegistry w)) as [h|] eqn:E; [|contradiction].
    destruct (truthy h) eqn:T; [|contradiction].
    destruct H as [<-|[]]. simpl. split.
    + intros ->. discriminate T.
    + exists tx, a. auto.
  - apply in_flat_map in H. destruct H as (cert & _ & H).
    pose proof (certificateActions_watched _ _ _ _ _ H) as W.
    destruct cert as [h|h p|h|]; simpl in H; try contradiction;
      destruct (JsMap.has h (registry w)); try contradiction;
      destruct H as [<-|[]]; exact W.
Qed.

(** C8, as the specification states it, does not hold: a withdrawal is
    matched through the reverse map alone.  After [c] was watched under both
    kinds, unwatched and reloaded, [c] is not watched, and the extractor
    still emits a withdraw action for the withdrawal from its key address,
    where the specification has no action. *)
Lemma extractEvents_withdrawal_of_unwatched :
  eval (isHashWatched "c") staleReverseC = false /\
  eval (fromAddress "e0c") staleReverseC = Some "c" /\
  eval (extractEvents withdrawalFromC) staleReverseC =
    [ChainStaking.mk "c" (Withdraw 5) 3000 "tx9"] /\
  specBlockActions staleReverseC withdrawalFromC = [] /\
  eval (extractEvents withdrawalFromC) staleReverseC <>
    specBlockActions staleReverseC withdrawalFromC.
Proof.
  assert (E : eval (extractEvents withdrawalFromC) staleReverseC =
              [ChainStaking.mk "c" (Withdraw 5) 3000 "tx9"])
    by (vm_compute; reflexivity).
  assert (S : specBlockActions staleReverseC withdrawalFromC = [])
    by (vm_compute; reflexivity).
  repeat split; try assumption; try (vm_compute; reflexivity).
  rewrite E, S. discriminate.
Qed.

(** C8 (as amended).  For every block and every state the extractor emits
    exactly, in block order: a withdraw action with its amount for each
    withdrawal entry whose address the reverse map resolves to a non-empty
    credential, whether or not the forward map still holds that credential;
    a register, delegate (with the pool) or deregister action for each such
    certificate whose credential is in the forward map; nothing for any
    other entry.  It calls [unwatch] once for each deregister action, which
    puts the credential in the removal set and leaves both maps as they
    are.  Where the reverse map only holds watched credentials, these are
    the actions of the specification, all of them for watched
    credentials. *)
Theorem extractEvents_by_lookup (w : World) (block : Block.t) :
  let events := eval (extractEvents block) w in
  let w' := exec (extractEvents block) w in
  events = blockActions w block /\
  (forall e, In e events ->
     match ChainStaking.action e with
     | Withdraw amount =>
         ChainStaking.hash e <> "" /\
         exists tx address,
           In tx (Block.body block) /\
           In (address, amount) (Tx.withdrawals tx) /\
           JsMap.get address (revRegistry w) = Some (ChainStaking.hash e)
     | _ => JsMap.has (ChainStaking.hash e) (registry w) = true
     end) /\
  w' = exec (unwatchAll (deregistered events)) w /\
  (forall h, In h (deregistered events) ->
             JsSet.has h (toRemove w') = true /\
             JsMap.has h (registry w') = true) /\
  registry w' = registry w /\ revRegistry w' = revRegistry w /\
  (reverse_sound w ->
   events = specBlockActions w block /\
   forall e, In e events ->
             JsMap.has (ChainStaking.hash e) (registry w) = true).
Proof.
  unfold exec, eval. rewrite extractEvents_run. simpl fst. simpl snd.
  destruct (unwatchAll_state (deregistered (blockActions w block)) w)
    as (R & V & _).
  cbv zeta in R, V.
  split; [reflexivity|]. split; [apply blockActions_origin|].
  split; [reflexivity|]. split; [|split; [exact R|split; [exact V|]]].
  - intros h H. split.
    + apply unwatchAll_marks; auto. now apply deregistered_watched in H.
    + rewrite R. now apply deregistered_watched in H.
  - intros S. split.
    + now apply blockActions_spec.
    + intros e. now apply blockActions_watched.
Qed.

(** The same on a concrete run. *)
Lemma extractEvents_by_lookup_witness :
  eval (extractEvents mixedBlock) watchingC1 =
    [ChainStaking.mk "c1" (Withdraw 42) 2000 "tx1";
     ChainStaking.mk "c1" (Delegate "pool9") 2000 "tx1";
     ChainStaking.mk "c1" Deregister 2000 "tx1"] /\
  JsSet.has "c1" (toRemove (exec (extractEvents mixedBlock) watchingC1)) = true
  /\
  eval (extractEvents mixedBlock) watchingC1 =
    specBlockActions watchingC1 mixedBlock.
Proof.
  destruct (@extractEvents_by_lookup watchingC1 mixedBlock)
    as (E & _ & _ & D & _ & _ & S).
  split; [|split].
  - rewrite E. reflexivity.
  - apply D. rewrite E. simpl. auto.
  - apply (S watchingC1_reverse_sound).
Defined.

(** ** The hand-off of the block handler *)

Lemma addAll_run hashes w :
  forEach hashes (fun hash =>
    update (fun w => with_toReload (JsSet.add hash (toReload w)) w)) w =
  (tt, with_toReload
         (fold_left (fun s hash => JsSet.add hash s) hashes (toReload w)) w).
Proof.
  revert w. induction hashes as [|h hs IH]; intros w.
  - destruct w; reflexivity.
  - rewrite forEach_cons. unfold bind, update at 1. rewrite IH. reflexivity.
Qed.

Lemma reload_some_run hashes w :
  exec (reload (Some hashes)) w =
  if fullReload w then w
  else
    let w1 :=
      with_toReload
        (fold_left (fun s hash => JsSet.add hash s) hashes (toReload w)) w in
    if willReloadDynamically w
    then with_effects (effects w ++ [ReloadDebounce]) w1
    else w1.
Proof.
  unfold exec, reload. unfold bind at 1, read at 1.
  destruct (fullReload w); auto.
  unfold bind at 1. rewrite addAll_run. run.
  destruct (willReloadDynamically w); reflexivity.
Qed.

(** C7.  The handler stores the block, appends to the log and hands the
    credentials to the scheduler exactly when the block produced an action,
    in that order: the hook first when it was supplied, then one insert of
    all the actions, then [reload] with their credentials when in sync.  A
    block without action changes nothing.  The registry is never touched.
    In the scenario of the specification the registration of the watched
    [H1] at slot 1000 yields the one action, one log row and, in sync, the
    call [reload(["H1"])]. *)
Theorem afterBlock_persists_then_reloads
  (w : World) (block : Block.t) (inSync storeBlock : bool) :
  let events := eval (extractEvents block) w in
  let w1 := exec (extractEvents block) w in
  let stored :=
    with_staking (staking w ++ events)
      (with_effects
         (effects w1 ++ (if storeBlock then [StoreBlock] else []) ++
          [SqlInsertStaking events]) w1) in
  let w' := exec (afterBlock block inSync storeBlock) w in
  (events = [] -> w' = w) /\
  (events <> [] ->
   w' = (if inSync
         then exec (reload (Some (map ChainStaking.hash events))) stored
         else stored) /\
   exists logs,
     forallb isConsole logs = true /\
     effects w' =
       effects w ++ logs ++
       (if storeBlock then [StoreBlock] else []) ++
       [SqlInsertStaking events] ++
       (if inSync && negb (fullReload w) && willReloadDynamically w
        then [ReloadDebounce] else [])) /\
  registry w' = registry w /\ revRegistry w' = revRegistry w /\
  (eval (extractEvents registrationOfH1) watchingH1 = [registerH1] /\
   let after := exec (afterBlock registrationOfH1 true true) watchingH1 in
   staking after = [registerH1] /\
   effects after =
     effects watchingH1 ++
     [StoreBlock; SqlInsertStaking [registerH1]; ReloadDebounce] /\
   toReload after = ["H1"] /\
   registry after = registry watchingH1 /\
   revRegistry after = revRegistry watchingH1 /\
   exec (afterBlock registrationOfH1 false true) watchingH1 =
     with_staking [registerH1]
       (with_effects
          (effects watchingH1 ++ [StoreBlock; SqlInsertStaking [registerH1]])
          watchingH1)).
Proof.
  cbv zeta.
  assert (Hev : eval (extractEvents block) w = blockActions w block)
    by (unfold eval; now rewrite extractEvents_run).
  assert (Hw1 : exec (extractEvents block) w =
                exec (unwatchAll (deregistered (blockActions w block))) w)
    by (unfold exec; now rewrite extractEvents_run).
  assert (E : exec (afterBlock block inSync storeBlock) w =
              exec (match blockActions w block with
                    | [] => ret tt
                    | _ :: _ =>
                        when storeBlock (emit StoreBlock) ;;
                        sqlInsertStaking (blockActions w block) ;;
                        when inSync
                          (reload (Some (map ChainStaking.hash
                                           (blockActions w block))))
                    end)
                   (exec (unwatchAll (deregistered (blockActions w block))) w)).
  { unfold afterBlock. rewrite exec_bind, Hev, Hw1.
    destruct (blockActions w block); reflexivity. }
  rewrite E, Hev, Hw1. clear E Hev Hw1.
  generalize (blockActions w block). intros events.
  destruct (unwatchAll_state (deregistered events) w)
    as (R & V & TR & F & D & _ & ST & _ & logs & EL & CL).
  cbv zeta in R, V, TR, F, D, ST, EL.
  assert (G :
    exec (when storeBlock (emit StoreBlock) ;;
          sqlInsertStaking events ;;
          when inSync (reload (Some (map ChainStaking.hash events))))
         (exec (unwatchAll (deregistered events)) w) =
    (if inSync
     then exec (reload (Some (map ChainStaking.hash events)))
            (with_staking (staking w ++ events)
               (with_effects
                  (effects (exec (unwatchAll (deregistered events)) w) ++
                   (if storeBlock then [StoreBlock] else []) ++
                   [SqlInsertStaking events])
                  (exec (unwatchAll (deregistered events)) w)))
     else with_staking (staking w ++ events)
            (with_effects
               (effects (exec (unwatchAll (deregistered events)) w) ++
                (if storeBlock then [StoreBlock] else []) ++
                [SqlInsertStaking events])
               (exec (unwatchAll (deregistered events)) w)))).
  { rewrite <- ST. unfold sqlInsertStaking.
    generalize (exec (unwatchAll (deregistered events)) w). intros w1. run.
    destruct storeBlock, inSync; simpl; rewrite <- ?app_assoc; reflexivity. }
  split; [|split; [|split; [|split]]].
  - intros ->. reflexivity.
  - intros N. remember (exec (unwatchAll (deregistered events)) w) as w1 eqn:Hw.
    clear Hw. destruct events as [|e es]; [congruence|].
    cbv iota. rewrite G. split; [reflexivity|].
    exists logs. split; auto.
    destruct inSync; simpl.
    + rewrite reload_some_run. simpl. rewrite F, D.
      destruct (fullReload w); simpl;
        [|destruct (willReloadDynamically w); simpl];
        rewrite EL, <- ?app_assoc; simpl; rewrite <- ?app_assoc;
        rewrite ?app_nil_r; reflexivity.
    + rewrite EL, <- !app_assoc. reflexivity.
  - destruct events as [|e es]; [exact R|].
    remember (exec (unwatchAll (deregistered (e :: es))) w) as w1 eqn:Hw.
    clear Hw. cbv iota. rewrite G.
    destruct inSync; [rewrite reload_some_run|]; simpl;
      try destruct (fullReload _); try destruct (willReloadDynamically _);
      exact R.
  - destruct events as [|e es]; [exact V|].
    remember (exec (unwatchAll (deregistered (e :: es))) w) as w1 eqn:Hw.
    clear Hw. cbv iota. rewrite G.
    destruct inSync; [rewrite reload_some_run|]; simpl;
      try destruct (fullReload _); try destruct (willReloadDynamically _);
      exact V.
  - repeat split.
Qed.

(** The same on a concrete run. *)
Lemma afterBlock_persists_then_reloads_witness :
  effects (exec (afterBlock mixedBlock true false) watchingC1) =
    effects watchingC1 ++
    [ConsoleLog (Unwatched "c1");
     SqlInsertStaking (eval (extractEvents mixedBlock) watchingC1)] /\
  exec (afterBlock (Block.mk 2001 []) true true) watchingC1 = watchingC1.
Proof.
  destruct (@afterBlock_persists_then_reloads watchingC1 mixedBlock true false)
    as (_ & G & _).
  destruct (@afterBlock_persists_then_reloads watchingC1 (Block.mk 2001 [])
              true true) as (G0 & _).
  split; [|apply G0; reflexivity].
  destruct G as (-> & _); [discriminate|]. reflexivity.
Defined.

(** ** Recovery *)

Section RecoveryQuery.
Variable h : string.

Lemma leb_refl (s : string) : (s <=? s)%string = true.
Proof. now destruct (String.leb_total s s). Qed.

(** The sort is stable: among the rows of one credential it keeps the
    order it was given. *)
Lemma find_insertByHash r sorted :
  find (carries h) (insertByHash r sorted) =
  if carries h r then Some r else find (carries h) sorted.
Proof.
  induction sorted as [|x xs IH]; simpl.
  - now destruct (carries h r).
  - destruct (ChainStaking.hash r <=? ChainStaking.hash x)%string eqn:L.
    + simpl. now destruct (carries h r).
    + simpl. rewrite IH. destruct (carries h r) eqn:Cr; auto.
      destruct (carries h x) eqn:Cx; auto.
      unfold carries in Cr, Cx.
      apply String.eqb_eq in Cr, Cx. rewrite Cr, Cx, leb_refl in L.
      discriminate.
Qed.

Lemma find_sorted rows :
  find (carries h) (fold_right insertByHash [] rows) = find (carries h) rows.
Proof.
  induction rows as [|r rows IH]; simpl; auto.
  now rewrite find_insertByHash, IH.
Qed.

Lemma find_last rows r :
  find (carries h) (rows ++ [r]) =
  match find (carries h) rows with
  | Some x => Some x
  | None => if carries h r then Some r else None
  end.
Proof.
  induction rows as [|x rows IH]; simpl; auto.
  now destruct (carries h x).
Qed.

(** The first row of a credential, from the highest [id] down, holds its
    most recent action. *)
Lemma mostRecentAction_find table :
  mostRecentAction h table =
  option_map ChainStaking.action (find (carries h) (rev table)).
Proof.
  induction table as [|r rest IH]; simpl; auto.
  rewrite find_last, IH.
  destruct (find (carries h) (rev rest)); simpl; auto.
  fold (carries h r). now destruct (carries h r).
Qed.
End RecoveryQuery.

Lemma distinctOnHash_first rows r :
  In r (distinctOnHash rows) <->
  find (carries (ChainStaking.hash r)) rows = Some r.
Proof.
  unfold carries. induction rows as [|x rows IH]; simpl.
  - split; [contradiction | discriminate].
  - rewrite filter_In, IH.
    destruct (String.eqb_spec (ChainStaking.hash x) (ChainStaking.hash r))
      as [E|N]; simpl.
    + split.
      * intros [->|[_ C]]; auto.
        rewrite E, String.eqb_refl in C. discriminate.
      * intros [= ->]. now left.
    + split.
      * intros [->|[F _]]; [congruence | exact F].
      * intros F. right. split; auto.
        destruct (String.eqb_spec (ChainStaking.hash r) (ChainStaking.hash x));
          simpl; congruence.
Qed.

Lemma is_active_not_deregister r :
  is_active r = true <-> ChainStaking.action r <> Deregister.
Proof.
  unfold is_active. destruct (ChainStaking.action r); split;
    congruence || discriminate.
Qed.

(** The query returns the credentials whose most recent action is not a
    deregistration. *)
Lemma selectActive_spec table h :
  In h (selectActive table) <->
  exists a, mostRecentAction h table = Some a /\ a <> Deregister.
Proof.
  unfold selectActive, orderByHashIdDesc.
  rewrite mostRecentAction_find, in_map_iff. split.
  - intros (r & <- & Hr). apply filter_In in Hr. destruct Hr as [Hr A].
    apply distinctOnHash_first in Hr. rewrite find_sorted in Hr.
    exists (ChainStaking.action r). rewrite Hr. split; auto.
    now apply is_active_not_deregister.
  - intros (a & F & A).
    destruct (find (carries h) (rev table)) as [r|] eqn:Hr; [|discriminate].
    injection F as <-. pose proof (find_some _ _ Hr) as [_ Hh].
    apply String.eqb_eq in Hh. exists r. split; auto.
    apply filter_In. split; [|now apply is_active_not_deregister].
    apply distinctOnHash_first. rewrite find_sorted, Hh. exact Hr.
Qed.

Lemma batchWatch_get derive hashes t w h :
  JsMap.get h (registry (exec (batchWatch derive hashes t) w)) =
  if JsSet.has h hashes then Some (derive t h) else JsMap.get h (registry w).
Proof.
  unfold batchWatch. rewrite exec_bind.
  change (registry (exec (emit (ConsoleLog (WatchedBatch (length hashes) t))) ?x))
    with (registry x).
  revert w. induction hashes as [|x hs IH]; intros w; auto.
  rewrite forEach_cons, exec_bind, IH. unfold JsSet.has. simpl existsb.
  fold (JsSet.has h hs). destruct (JsSet.has h hs); [now rewrite orb_true_r|].
  rewrite orb_false_r. run.
  destruct (String.eqb_spec h x) as [->|N].
  - apply JsMapFacts.get_set_eq.
  - apply JsMapFacts.get_set_neq. congruence.
Qed.

Lemma watchAll_run derive (t : StakingType) hashes w :
  forEach hashes (fun hash =>
    update (fun w =>
      with_registry (JsMap.set hash (derive t hash) (registry w)) w) ;;
    update (fun w =>
      with_revRegistry (JsMap.set (derive t hash) hash (revRegistry w)) w)) w =
  (tt,
   with_revRegistry
     (fold_left (fun m hash => JsMap.set (derive t hash) hash m) hashes
        (revRegistry w))
     (with_registry
        (fold_left (fun m hash => JsMap.set hash (derive t hash) m) hashes
           (registry w)) w)).
Proof.
  revert w. induction hashes as [|h hs IH]; intros w.
  - destruct w; reflexivity.
  - rewrite forEach_cons. unfold bind at 1. unfold bind at 1, update at 1 2.
    rewrite IH. reflexivity.
Qed.

Lemma batchWatch_run derive hashes t w :
  exec (batchWatch derive hashes t) w =
  with_effects (effects w ++ [ConsoleLog (WatchedBatch (length hashes) t)])
    (with_revRegistry
       (fold_left (fun m hash => JsMap.set (derive t hash) hash m) hashes
          (revRegistry w))
       (with_registry
          (fold_left (fun m hash => JsMap.set hash (derive t hash) m) hashes
             (registry w)) w)).
Proof.
  unfold batchWatch, exec. unfold bind at 1. rewrite watchAll_run.
  reflexivity.
Qed.

Lemma registry_after_emit e w : registry (exec (emit e) w) = registry w.
Proof. reflexivity. Qed.

Lemma eval_isHashWatched h w :
  eval (isHashWatched h) w = JsMap.has h (registry w).
Proof. reflexivity. Qed.

Lemma eval_fromHash h w : eval (fromHash h) w = JsMap.get h (registry w).
Proof. reflexivity. Qed.

Lemma exec_read w : exec read w = w.
Proof. reflexivity. Qed.

Lemma eval_read w : eval read w = w.
Proof. reflexivity. Qed.

Lemma staking_after_clear w :
  staking (exec (emit SqlSelectActive) (exec clear w)) = staking w.
Proof. reflexivity. Qed.

(** [reboot] reads the log as it is on entry; what it has run of [clear]
    by then depends on the queue. *)
Lemma reboot_run derive outcome w :
  exec (reboot derive outcome) w =
  exec (emit (ConsoleLog Reboot))
    (exec (batchWatch derive (selectActive (staking w)) Script)
       (exec (emit SqlSelectActive)
          (exec (match outcome with
                 | ClearLandsFirst => clear
                 | ClearPending => emit QueuePause
                 | ClearRejects => ret tt
                 end) w))).
Proof.
  unfold reboot. rewrite !exec_bind, eval_read, exec_read.
  destruct outcome; [now rewrite staking_after_clear | reflexivity ..].
Qed.

(** The forward map after [reboot]: the recovered credentials, written over
    nothing when the reset came first and over the old map otherwise. *)
Lemma reboot_get derive outcome w h :
  JsMap.get h (registry (exec (reboot derive outcome) w)) =
  if JsSet.has h (selectActive (staking w)) then Some (derive Script h)
  else match outcome with
       | ClearLandsFirst => None
       | _ => JsMap.get h (registry w)
       end.
Proof.
  rewrite reboot_run, registry_after_emit, batchWatch_get.
  destruct outcome; reflexivity.
Qed.

(** [reboot] at an idle queue. *)
Lemma reboot_state derive w :
  exec (reboot derive ClearLandsFirst) w =
  with_effects
    (effects w ++
     [QueuePause; QueueResume; ConsoleLog Clear; SqlSelectActive;
      ConsoleLog (WatchedBatch (length (selectActive (staking w))) Script);
      ConsoleLog Reboot])
    (with_revRegistry
       (fold_left (fun m hash => JsMap.set (derive Script hash) hash m)
          (selectActive (staking w)) JsMap.empty)
       (with_registry
          (fold_left (fun m hash => JsMap.set hash (derive Script hash) m)
             (selectActive (staking w)) JsMap.empty)
          (with_fullReload false
             (with_toRemove JsSet.empty (with_toReload JsSet.empty w))))).
Proof.
  rewrite reboot_run, batchWatch_run. unfold clear, clearAfterDrain. run.
  rewrite <- !app_assoc. reflexivity.
Qed.

(** [reboot] when its [clear] has reset nothing by the time the rows are
    there. *)
Lemma reboot_unreset_state derive outcome w :
  outcome <> ClearLandsFirst ->
  exec (reboot derive outcome) w =
  with_effects
    (effects w ++
     match outcome with ClearPending => [QueuePause] | _ => [] end ++
     [SqlSelectActive;
      ConsoleLog (WatchedBatch (length (selectActive (staking w))) Script);
      ConsoleLog Reboot])
    (with_revRegistry
       (fold_left (fun m hash => JsMap.set (derive Script hash) hash m)
          (selectActive (staking w)) (revRegistry w))
       (with_registry
          (fold_left (fun m hash => JsMap.set hash (derive Script hash) m)
             (selectActive (staking w)) (registry w))
          w)).
Proof.
  intros N. rewrite reboot_run, batchWatch_run.
  destruct outcome; [congruence | |]; run; destruct w; simpl;
    rewrite <- ?app_assoc; reflexivity.
Qed.

Lemma clearAfterDrain_state w :
  exec clearAfterDrain w =
  with_effects (effects w ++ [QueueResume; ConsoleLog Clear])
    (with_fullReload false
       (with_toRemove JsSet.empty
          (with_toReload JsSet.empty
             (with_revRegistry JsMap.empty
                (with_registry JsMap.empty w))))).
Proof.
  unfold clearAfterDrain. run. destruct w; simpl.
  rewrite <- ?app_assoc. reflexivity.
Qed.

(** C9.  [reboot] does not wait for its [clear] (line 279), so what it
    results in depends on the queue.
    - At an idle queue the reset lands before the rows and the
      specification holds: a credential is watched afterwards exactly when
      its most recent logged action, by insertion order, is not a
      deregistration, and then as a script credential; the flag is down,
      both pending sets are empty and no reload is scheduled.
    - With a reload in flight that outlasts the query, [reboot] resolves
      with the recovered credentials written over the registry as it was:
      what was watched before is still watched, whatever the log says, and
      the pending sets and the flag are as they were.  The reset lands once
      the queue has drained, and leaves nothing watched.
    - On the started indexer that watches [Y], over the log where [X]
      registers, delegates and withdraws and [Y] registers and deregisters:
      with the reload in flight [Y] is watched when [reboot] resolves and
      [X] is not watched once the reset has landed; at an idle queue [X] is
      watched and [Y] is not. *)
Theorem reboot_does_not_await_clear
  (derive : StakingType -> string -> string) (w : World) :
  (let w' := exec (reboot derive ClearLandsFirst) w in
   (forall h,
      eval (isHashWatched h) w' = true <->
      exists a, mostRecentAction h (staking w) = Some a /\ a <> Deregister) /\
   (forall h,
      eval (isHashWatched h) w' = true ->
      eval (fromHash h) w' = Some (derive Script h)) /\
   fullReload w' = false /\
   toReload w' = JsSet.empty /\ toRemove w' = JsSet.empty /\
   effects w' =
     effects w ++
     [QueuePause; QueueResume; ConsoleLog Clear; SqlSelectActive;
      ConsoleLog (WatchedBatch (length (selectActive (staking w))) Script);
      ConsoleLog Reboot] /\
   staking w' = staking w /\ staking_state w' = staking_state w) /\
  (let w' := exec (reboot derive ClearPending) w in
   (forall h,
      eval (fromHash h) w' =
      if JsSet.has h (selectActive (staking w)) then Some (derive Script h)
      else eval (fromHash h) w) /\
   (forall h,
      eval (isHashWatched h) w = true -> eval (isHashWatched h) w' = true) /\
   fullReload w' = fullReload w /\
   toReload w' = toReload w /\ toRemove w' = toRemove w /\
   effects w' =
     effects w ++
     [QueuePause; SqlSelectActive;
      ConsoleLog (WatchedBatch (length (selectActive (staking w))) Script);
      ConsoleLog Reboot] /\
   staking w' = staking w /\ staking_state w' = staking_state w /\
   (forall later h,
      eval (isHashWatched h) (exec clearAfterDrain later) = false)) /\
  (let resolved := exec (reboot hexRewardAddress ClearPending) watchingY in
   let drained := exec clearAfterDrain resolved in
   let idle := exec (reboot hexRewardAddress ClearLandsFirst) watchingY in
   isActive watchingY = true /\
   mostRecentAction "Y" (staking watchingY) = Some Deregister /\
   eval (isHashWatched "Y") resolved = true /\
   mostRecentAction "X" (staking watchingY) = Some (Withdraw 5) /\
   eval (isHashWatched "X") resolved = true /\
   eval (isHashWatched "X") drained = false /\
   eval (isHashWatched "X") idle = true /\
   eval (isHashWatched "Y") idle = false /\
   JsMap.keys (registry idle) = ["X"]).
Proof.
  cbv zeta. split; [|split].
  - split; [|split; [|split; [|split; [|split; [|split; [|split]]]]]].
    + intros h. rewrite eval_isHashWatched. unfold JsMap.has.
      rewrite reboot_get, <- selectActive_spec, <- JsSetFacts.has_in.
      destruct (JsSet.has h (selectActive (staking w))); split; congruence.
    + intros h. rewrite eval_isHashWatched, eval_fromHash. unfold JsMap.has.
      rewrite reboot_get. destruct (JsSet.has h (selectActive (staking w)));
        congruence.
    + rewrite reboot_state. reflexivity.
    + rewrite reboot_state. reflexivity.
    + rewrite reboot_state. reflexivity.
    + rewrite reboot_state. reflexivity.
    + rewrite reboot_state. reflexivity.
    + rewrite reboot_state. reflexivity.
  - assert (P : ClearPending <> ClearLandsFirst) by discriminate.
    split; [|split; [|split; [|split; [|split; [|split; [|split; [|split]]]]]]].
    + intros h. rewrite !eval_fromHash. apply reboot_get.
    + intros h. rewrite !eval_isHashWatched. unfold JsMap.has.
      rewrite reboot_get.
      destruct (JsSet.has h (selectActive (staking w))); auto.
    + rewrite (reboot_unreset_state derive w P). reflexivity.
    + rewrite (reboot_unreset_state derive w P). reflexivity.
    + rewrite (reboot_unreset_state derive w P). reflexivity.
    + rewrite (reboot_unreset_state derive w P). reflexivity.
    + rewrite (reboot_unreset_state derive w P). reflexivity.
    + rewrite (reboot_unreset_state derive w P). reflexivity.
    + intros later h. rewrite eval_isHashWatched, clearAfterDrain_state.
      reflexivity.
  - vm_compute. repeat split.
Qed.

(** * Further properties *)

(** ** Watching *)

Lemma set_twice {V} k (v : V) m :
  JsMap.set k v (JsMap.set k v m) = JsMap.set k v m.
Proof.
  induction m as [|[k' v'] m IH]; simpl.
  - now rewrite String.eqb_refl.
  - destruct (k =? k') eqn:E; simpl; rewrite E; [reflexivity|].
    now rewrite IH.
Qed.

Lemma eval_fromAddress a w :
  eval (fromAddress a) w = JsMap.get a (revRegistry w).
Proof. reflexivity. Qed.

Lemma eval_isAddressWatched a w :
  eval (isAddressWatched a) w = JsMap.has a (revRegistry w).
Proof. reflexivity. Qed.

Lemma watch_run derive h t w :
  exec (watch derive h t) w =
  with_effects (effects w ++ [ConsoleLog (Watched t h (derive t h))])
    (with_revRegistry (JsMap.set (derive t h) h (revRegistry w))
       (with_registry (JsMap.set h (derive t h) (registry w)) w)).
Proof. reflexivity. Qed.

(** X1.  After [watch(h, type)] the credential resolves to its derived
    address and the address back to the credential, both are reported
    watched, the lookups of every other credential and of every other
    address answer as before, and watching the same credential the same way
    again leaves both maps as they are. *)
Theorem watch_round_trip
  (derive : StakingType -> string -> string) (w : World)
  (h : string) (t : StakingType) :
  let w' := exec (watch derive h t) w in
  eval (fromHash h) w' = Some (derive t h) /\
  eval (fromAddress (derive t h)) w' = Some h /\
  eval (isHashWatched h) w' = true /\
  eval (isAddressWatched (derive t h)) w' = true /\
  (forall h', h' <> h -> eval (fromHash h') w' = eval (fromHash h') w) /\
  (forall a', a' <> derive t h ->
              eval (fromAddress a') w' = eval (fromAddress a') w) /\
  registry (exec (watch derive h t) w') = registry w' /\
  revRegistry (exec (watch derive h t) w') = revRegistry w'.
Proof.
  cbv zeta. rewrite !watch_run.
  rewrite !eval_fromHash, !eval_fromAddress, eval_isHashWatched,
    eval_isAddressWatched.
  unfold JsMap.has. simpl.
  rewrite !JsMapFacts.get_set_eq, !set_twice.
  repeat split; auto.
  - intros h' N. rewrite eval_fromHash, eval_fromHash. simpl.
    apply JsMapFacts.get_set_neq. congruence.
  - intros a' N. rewrite eval_fromAddress, eval_fromAddress. simpl.
    apply JsMapFacts.get_set_neq. congruence.
Qed.

(** The same on a concrete run. *)
Lemma watch_round_trip_witness :
  eval (fromHash "c1")
       (exec (watch hexRewardAddress "c2" Script) watchingC1) = Some "f0c1".
Proof.
  destruct (@watch_round_trip hexRewardAddress watchingC1 "c2" Script)
    as (_ & _ & _ & _ & G & _).
  rewrite G; [reflexivity | discriminate].
Defined.

Lemma watches_run derive (t : StakingType) hashes w :
  forEach hashes (fun hash => watch derive hash t) w =
  (tt,
   with_effects
     (effects w ++
      map (fun hash => ConsoleLog (Watched t hash (derive t hash))) hashes)
     (with_revRegistry
        (fold_left (fun m hash => JsMap.set (derive t hash) hash m) hashes
           (revRegistry w))
        (with_registry
           (fold_left (fun m hash => JsMap.set hash (derive t hash) m) hashes
              (registry w)) w))).
Proof.
  revert w. induction hashes as [|h hs IH]; intros w.
  - simpl. rewrite app_nil_r. destruct w; reflexivity.
  - rewrite forEach_cons. unfold bind at 1.
    replace (watch derive h t w) with (tt, exec (watch derive h t) w)
      by reflexivity.
    rewrite IH, watch_run. simpl. now rewrite <- app_assoc.
Qed.

(** X2.  [batchWatch] leaves the state that watching its credentials one by
    one, in order, leaves; only the console differs: one line for the batch
    instead of one line for each credential. *)
Theorem batchWatch_as_watches
  (derive : StakingType -> string -> string) (hashes : list string)
  (t : StakingType) (w : World) :
  let batched := exec (batchWatch derive hashes t) w in
  let single := exec (forEach hashes (fun hash => watch derive hash t)) w in
  with_effects [] batched = with_effects [] single /\
  effects batched =
    effects w ++ [ConsoleLog (WatchedBatch (length hashes) t)] /\
  effects single =
    effects w ++
    map (fun hash => ConsoleLog (Watched t hash (derive t hash))) hashes.
Proof.
  cbv zeta. rewrite batchWatch_run. unfold exec. rewrite watches_run.
  repeat split.
Qed.

(** ** Selective reloads *)

Lemma collectAddress_step batch h w :
  collectAddress batch h w =
  (batch ++ pendingAddress w h,
   with_effects (effects w ++ missingAddressWarnings w [h]) w).
Proof.
  unfold collectAddress, missingAddressWarnings, pendingAddress. run.
  destruct (JsMap.get h (registry w)) as [a|]; [destruct (truthy a)|];
    simpl; rewrite ?app_nil_r; try reflexivity.
  destruct w; reflexivity.
Qed.

Lemma collectAddress_run hashes batch w :
  foldM hashes batch collectAddress w =
  (batch ++ flat_map (pendingAddress w) hashes,
   with_effects (effects w ++ missingAddressWarnings w hashes) w).
Proof.
  revert batch w. induction hashes as [|h hs IH]; intros batch w.
  - simpl. rewrite !app_nil_r. destruct w; reflexivity.
  - rewrite foldM_cons. unfold bind at 1. rewrite collectAddress_step, IH.
    unfold missingAddressWarnings. simpl.
    rewrite <- !app_assoc. reflexivity.
Qed.

Lemma takeBatch_selective_run w :
  fullReload w = false -> toReload w <> [] ->
  takeBatch w =
  (Some (pendingAddresses w),
   with_toReload JsSet.empty
     (with_effects
        (effects w ++
         ConsoleLog (Reloading (JsSet.size (toReload w))) ::
         missingAddressWarnings w (toReload w)) w)).
Proof.
  intros F T. rewrite takeBatch_selective by auto. cbv zeta.
  unfold eval, exec. rewrite collectAddress_run. simpl.
  unfold missingAddressWarnings, pendingAddresses.
  now rewrite <- app_assoc.
Qed.

Lemma forallb_missingAddressWarnings w hashes :
  forallb isConsole (missingAddressWarnings w hashes) = true.
Proof.
  induction hashes as [|h hs IH]; auto.
  unfold missingAddressWarnings in *. simpl. rewrite forallb_app, IH.
  now destruct (pendingAddress w h).
Qed.



(** Taking the batch writes to the console only. *)
Lemma takeBatch_effects w :
  exists logs,
    effects (exec takeBatch w) = effects w ++ logs /\
    forallb isConsole logs = true.
Proof.
  destruct (fullReload w) eqn:F.
  - unfold exec. rewrite takeBatch_full by auto. simpl. eauto.
  - assert (toReload w = [] \/ toReload w <> []) as [T|T]
      by (destruct (toReload w); [left|right]; congruence).
    + unfold exec. rewrite takeBatch_none by auto. exists [].
      now rewrite app_nil_r.
    + unfold exec. rewrite takeBatch_selective_run by auto. simpl.
      eexists. split; [reflexivity|]. simpl.
      apply forallb_missingAddressWarnings.
Qed.

(** X4.  An execution whose batch is empty (nothing pending; a full reload
    of an empty registry; pending credentials without address) only writes
    to the console: no fetch, no upsert, no callback, the registry and the
    state table as before, the pending work taken.  With nothing pending at
    all it changes nothing, the console included. *)
Theorem doReload_empty_batch
  (slotFrom : Tip -> Z) (onReloaded : bool) (client : StateQueryClient)
  (w : World) :
  isActive w = true ->
  (eval takeBatch w = None \/ eval takeBatch w = Some []) ->
  let w' := exec (doReload slotFrom onReloaded client) w in
  (exists logs,
     effects w' = effects w ++ logs /\ forallb isConsole logs = true) /\
  registry w' = registry w /\ revRegistry w' = revRegistry w /\
  staking_state w' = staking_state w /\ staking w' = staking w /\
  toReload w' = JsSet.empty /\ fullReload w' = false /\
  (fullReload w = false -> toReload w = [] -> w' = w).
Proof.
  intros A E. cbv zeta. rewrite exec_doReload_active by auto.
  assert (G : exec
                (match eval takeBatch w with
                 | Some ((_ :: _) as b) =>
                     mergeBatch slotFrom onReloaded client b
                 | _ => ret tt
                 end) (exec takeBatch w) = exec takeBatch w)
    by (destruct E as [-> | ->]; reflexivity).
  rewrite G.
  destruct (takeBatch_state w) as (R & V & _ & _ & _ & S & SS & F & T).
  cbv zeta in R, V, S, SS, F, T.
  repeat split; auto.
  - apply takeBatch_effects.
  - intros F0 T0. unfold exec. now rewrite takeBatch_none.
Qed.

(** A full reload right after [clear]. *)
Lemma doReload_empty_batch_witness :
  In (ConsoleLog ReloadingAll)
     (effects (exec (doReload sampleSlotFrom true sampleClient)
                    (exec (clear ;; reload None) watchingC1))) /\
  staking_state (exec (doReload sampleSlotFrom true sampleClient)
                      (exec (clear ;; reload None) watchingC1)) = [].
Proof.
  destruct (@doReload_empty_batch sampleSlotFrom true sampleClient
              (exec (clear ;; reload None) watchingC1))
    as (_ & _ & _ & G & _); try reflexivity.
  - right. reflexivity.
  - split; [|rewrite G; reflexivity]. vm_compute. tauto.
Defined.

(** ** Requests *)

Lemma has_addAll h hashes s :
  JsSet.has h (fold_left (fun s hash => JsSet.add hash s) hashes s) =
  JsSet.has h s || JsSet.has h hashes.
Proof.
  revert s. induction hashes as [|x hs IH]; intros s; simpl.
  - now rewrite orb_false_r.
  - rewrite IH, JsSetFacts.has_add. unfold JsSet.has at 4. simpl.
    fold (JsSet.has h hs). rewrite (String.eqb_sym h x).
    destruct (x =? h), (JsSet.has h s); reflexivity.
Qed.

(** X5.  While no full reload is pending, selective requests add up: after
    any number of [reload(hashes)] calls a credential is in the selective
    set exactly when it was there before or in one of the requests.  Each
    call schedules a debounce cycle in dynamic mode and schedules nothing
    otherwise; the flag and the registry stay as they are. *)
Theorem reload_requests_accumulate
  (requests : list (list string)) (w : World) :
  fullReload w = false ->
  let w' := exec (forEach requests (fun hashes => reload (Some hashes))) w in
  (forall h,
     JsSet.has h (toReload w') =
     JsSet.has h (toReload w) || existsb (JsSet.has h) requests) /\
  fullReload w' = false /\
  registry w' = registry w /\ revRegistry w' = revRegistry w /\
  toRemove w' = toRemove w /\
  effects w' =
    effects w ++
    (if willReloadDynamically w
     then repeat ReloadDebounce (length requests) else []).
Proof.
  intros F. cbv zeta. revert w F.
  induction requests as [|hs requests IH]; intros w F.
  - simpl. repeat split; auto.
    + intros h. now rewrite orb_false_r.
    + destruct (willReloadDynamically w); now rewrite app_nil_r.
  - rewrite forEach_cons, exec_bind, reload_some_run, F. cbv zeta.
    set (w1 := if willReloadDynamically w then _ else _).
    assert (W1 : fullReload w1 = false /\
                 willReloadDynamically w1 = willReloadDynamically w /\
                 registry w1 = registry w /\ revRegistry w1 = revRegistry w /\
                 toRemove w1 = toRemove w /\
                 toReload w1 =
                   fold_left (fun s hash => JsSet.add hash s) hs (toReload w) /\
                 effects w1 =
                   effects w ++
                   (if willReloadDynamically w then [ReloadDebounce] else [])).
    { subst w1. destruct (willReloadDynamically w) eqn:D; simpl;
        rewrite ?app_nil_r; repeat split; auto. }
    destruct W1 as (F1 & D1 & R1 & V1 & M1 & T1 & E1).
    destruct (IH w1 F1) as (I1 & I2 & I3 & I4 & I5 & I6).
    repeat split; try congruence.
    + intros h. rewrite I1, T1, has_addAll. simpl. now rewrite orb_assoc.
    + rewrite I6, E1, D1. destruct (willReloadDynamically w); simpl.
      * now rewrite <- app_assoc.
      * now rewrite app_nil_r.
Qed.

(** The same on a concrete run. *)
Lemma reload_requests_accumulate_witness :
  toReload (exec (forEach [["c1"; "c2"]; ["c2"; "c3"]; []]
                    (fun hashes => reload (Some hashes))) watchingH1)
  = ["c1"; "c2"; "c3"] /\
  JsSet.has "c3"
    (toReload (exec (forEach [["c1"; "c2"]; ["c2"; "c3"]; []]
                       (fun hashes => reload (Some hashes))) watchingH1))
  = true.
Proof.
  destruct (@reload_requests_accumulate [["c1"; "c2"]; ["c2"; "c3"]; []]
              watchingH1 eq_refl) as (G & _).
  split; [reflexivity|]. rewrite G. reflexivity.
Defined.

(** ** What an execution merges *)

(** The merge only ever takes entries away from the maps. *)
Lemma mergeLoop_subset slotFrom tip resp acc w :
  let w' := exec (foldM resp acc (mergeEntry slotFrom tip)) w in
  (forall h a, JsMap.get h (registry w') = Some a ->
               JsMap.get h (registry w) = Some a) /\
  (forall a h, JsMap.get a (revRegistry w') = Some h ->
               JsMap.get a (revRegistry w) = Some h).
Proof.
  cbv zeta. revert acc w. induction resp as [|[k e] resp IH]; intros acc w.
  - simpl. auto.
  - rewrite foldM_cons, exec_bind.
    destruct (@mergeEntry_state slotFrom tip acc k e w) as (_ & R & V & _).
    cbv zeta in R, V.
    set (w1 := exec (mergeEntry slotFrom tip acc (k, e)) w) in *.
    destruct (IH (eval (mergeEntry slotFrom tip acc (k, e)) w) w1) as [I1 I2].
    split.
    + intros h a H. apply I1 in H. rewrite R in H.
      destruct (JsSet.has k (toRemove w)); auto.
      destruct (String.eqb_spec k h) as [->|D].
      * now rewrite JsMapFacts.get_delete_eq in H.
      * now rewrite JsMapFacts.get_delete_neq in H.
    + intros a h H. apply I2 in H. rewrite V in H.
      destruct (JsSet.has k (toRemove w)); auto.
      match type of H with JsMap.get a (JsMap.delete ?x _) = _ =>
        destruct (String.eqb_spec x a) as [D|D] end.
      * rewrite D, JsMapFacts.get_delete_eq in H. discriminate.
      * now rewrite JsMapFacts.get_delete_neq in H.
Qed.

(** A credential that is not pending removal keeps its forward entry. *)
Lemma mergeLoop_keeps slotFrom tip resp acc w h :
  JsSet.has h (toRemove w) = false ->
  JsMap.get h (registry (exec (foldM resp acc (mergeEntry slotFrom tip)) w)) =
  JsMap.get h (registry w).
Proof.
  revert acc w. induction resp as [|[k e] resp IH]; intros acc w N; auto.
  rewrite foldM_cons, exec_bind.
  destruct (@mergeEntry_state slotFrom tip acc k e w)
    as ((_ & T & _) & R & _).
  cbv zeta in R. rewrite IH by congruence. rewrite R.
  destruct (JsSet.has k (toRemove w)) eqn:K; auto.
  apply JsMapFacts.get_delete_neq. congruence.
Qed.

(** X6.  A reload execution never adds to the registry: every entry of the
    forward or of the reverse map afterwards was there before.  It only
    takes away credentials pending removal: a credential that is not in the
    removal set keeps its forward entry, whatever the node answers. *)
Theorem doReload_only_removes_pending
  (slotFrom : Tip -> Z) (onReloaded : bool) (client : StateQueryClient)
  (w : World) :
  let w' := exec (doReload slotFrom onReloaded client) w in
  (forall h a, JsMap.get h (registry w') = Some a ->
               JsMap.get h (registry w) = Some a) /\
  (forall a h, JsMap.get a (revRegistry w') = Some h ->
               JsMap.get a (revRegistry w) = Some h) /\
  (forall h, JsSet.has h (toRemove w) = false ->
             JsMap.get h (registry w') = JsMap.get h (registry w)).
Proof.
  cbv zeta. destruct (isActive w) eqn:A.
  - rewrite exec_doReload_active by auto.
    destruct (takeBatch_state w) as (R & V & T & _). cbv zeta in R, V, T.
    destruct (eval takeBatch w) as [[|a0 b]|];
      rewrite ?exec_ret, ?R, ?V; auto.
    destruct (@mergeBatch_state slotFrom onReloaded client (a0 :: b)
                (exec takeBatch w)) as (R' & V' & _).
    cbv zeta in R', V'. rewrite R', V'.
    match goal with |- context [exec (foldM ?resp ?acc _) ?w0] =>
      destruct (@mergeLoop_subset slotFrom (ledgerTip client) resp acc w0)
        as [S1 S2];
      pose proof (fun h => @mergeLoop_keeps slotFrom (ledgerTip client)
                             resp acc w0 h) as K
    end.
    simpl in S1, S2, K. rewrite R in S1. rewrite V in S2.
    rewrite T, R in K. repeat split; auto.
  - rewrite doReload_inactive by auto. simpl. auto.
Qed.

(** The same on a concrete run: [c1] is not pending removal. *)
Lemma doReload_only_removes_pending_witness :
  JsMap.get "c1"
    (registry (exec (doReload sampleSlotFrom true sampleClient)
                    fullReloadPending)) = Some "f0c1".
Proof.
  destruct (@doReload_only_removes_pending sampleSlotFrom true sampleClient
              fullReloadPending) as (_ & _ & G).
  rewrite G; reflexivity.
Defined.

(** ** The state table *)

Lemma upsertRows_get_other rows table k :
  ~ In k (map ChainStakingState.hash rows) ->
  JsMap.get k (upsertRows rows table) = JsMap.get k table.
Proof.
  unfold upsertRows. revert table.
  induction rows as [|r rows IH]; intros table N; auto.
  simpl in *. rewrite IH by tauto.
  apply JsMapFacts.get_set_neq. tauto.
Qed.

Lemma upsertRows_get_in rows table r :
  NoDup (map ChainStakingState.hash rows) -> In r rows ->
  JsMap.get (ChainStakingState.hash r) (upsertRows rows table) = Some r.
Proof.
  revert table. induction rows as [|x rows IH]; intros table D Hin;
    [contradiction|].
  simpl in D. inversion D as [|? ? Nx Dr]; subst.
  change (upsertRows (x :: rows) table)
    with (upsertRows rows (JsMap.set (ChainStakingState.hash x) x table)).
  destruct Hin as [->|Hin].
  - rewrite upsertRows_get_other by auto. apply JsMapFacts.get_set_eq.
  - now apply IH.
Qed.

(** X7.  The upsert into the state table, given rows of distinct
    credentials, leaves every one of them readable under its credential,
    whatever the table held for it, and touches no other row; running the
    same statement again changes no lookup. *)
Theorem upsert_overwrites_and_is_idempotent
  (rows : list ChainStakingState.t) (w : World) :
  NoDup (map ChainStakingState.hash rows) ->
  let w1 := exec (sqlUpsertStakingState rows) w in
  (forall r, In r rows ->
     JsMap.get (ChainStakingState.hash r) (staking_state w1) = Some r) /\
  (forall k, ~ In k (map ChainStakingState.hash rows) ->
     JsMap.get k (staking_state w1) = JsMap.get k (staking_state w)) /\
  (forall k,
     JsMap.get k (staking_state (exec (sqlUpsertStakingState rows) w1)) =
     JsMap.get k (staking_state w1)) /\
  staking w1 = staking w /\ registry w1 = registry w.
Proof.
  intros D. cbv zeta.
  change (staking_state (exec (sqlUpsertStakingState rows) w))
    with (upsertRows rows (staking_state w)).
  change (staking_state
            (exec (sqlUpsertStakingState rows)
               (exec (sqlUpsertStakingState rows) w)))
    with (upsertRows rows (upsertRows rows (staking_state w))).
  repeat split.
  - intros r Hin. now apply upsertRows_get_in.
  - intros k N. now apply upsertRows_get_other.
  - intros k.
    destruct (in_dec string_dec k (map ChainStakingState.hash rows))
      as [Hin|N].
    + apply in_map_iff in Hin. destruct Hin as (r & <- & Hin).
      now rewrite !upsertRows_get_in.
    + now rewrite upsertRows_get_other.
Qed.

(** The same on a concrete run: a newer row replaces the older one. *)
Lemma upsert_overwrites_and_is_idempotent_witness :
  JsMap.get "c1"
    (staking_state
       (exec (sqlUpsertStakingState
                [ChainStakingState.mk "c1" "f0c1" None 9 2000])
             (exec (doReload sampleSlotFrom true sampleClient)
                   fullReloadPending)))
  = Some (ChainStakingState.mk "c1" "f0c1" None 9 2000).
Proof.
  destruct (@upsert_overwrites_and_is_idempotent
              [ChainStakingState.mk "c1" "f0c1" None 9 2000]
              (exec (doReload sampleSlotFrom true sampleClient)
                    fullReloadPending)) as (G & _).
  - repeat constructor. simpl. tauto.
  - apply (G (ChainStakingState.mk "c1" "f0c1" None 9 2000)).
    simpl. auto.
Defined.

Lemma mergeEntry_row slotFrom tip acc item w :
  eval (mergeEntry slotFrom tip acc item) w =
  acc ++ [snapshotRow slotFrom tip (registry w) item].
Proof.
  destruct item as [h e]. unfold mergeEntry, snapshotRow. run.
  destruct (truthy _), (JsSet.has h (toRemove w)); reflexivity.
Qed.

Lemma snapshotRow_hash slotFrom tip reg item :
  ChainStakingState.hash (snapshotRow slotFrom tip reg item) = fst item.
Proof. now destruct item. Qed.

(** With distinct keys in the answer every row carries the address its
    credential had when the merge began. *)
Lemma mergeLoop_rows slotFrom tip resp acc w :
  NoDup (map fst resp) ->
  eval (foldM resp acc (mergeEntry slotFrom tip)) w =
  acc ++ map (snapshotRow slotFrom tip (registry w)) resp.
Proof.
  revert acc w. induction resp as [|[k e] resp IH]; intros acc w D.
  - simpl. now rewrite app_nil_r.
  - simpl in D. inversion D as [|? ? Nk Dr]; subst.
    rewrite foldM_cons, eval_bind, IH, mergeEntry_row by auto.
    rewrite <- app_assoc. f_equal. cbn [map app]. f_equal.
    apply map_ext_in. intros [k' e'] Hin.
    destruct (@mergeEntry_state slotFrom tip acc k e w) as (_ & R & _).
    cbv zeta in R. unfold snapshotRow. rewrite R.
    destruct (JsSet.has k (toRemove w)); auto.
    rewrite JsMapFacts.get_delete_neq; auto.
    intros ->. apply Nk. apply in_map_iff. now exists (k', e').
Qed.

(** X8.  After an execution that fetched, the state table holds, for every
    entry of the answer (the keys of an object are distinct), a row with the
    credential, the address it had in the registry when the execution began
    (empty when it had none), the pool or none, the rewards or zero, and the
    slot of the tip; this holds for a credential the same execution removes
    from the registry.  The rows of all other credentials are untouched. *)
Theorem doReload_writes_snapshots
  (slotFrom : Tip -> Z) (onReloaded : bool) (client : StateQueryClient)
  (w : World) (b : list string) :
  isActive w = true ->
  eval takeBatch w = Some b -> b <> [] ->
  NoDup (responseKeys client b) ->
  let w' := exec (doReload slotFrom onReloaded client) w in
  (forall item, In item (delegationsAndRewards client b) ->
     JsMap.get (fst item) (staking_state w') =
     Some (snapshotRow slotFrom (ledgerTip client) (registry w) item)) /\
  (forall k, ~ In k (responseKeys client b) ->
     JsMap.get k (staking_state w') = JsMap.get k (staking_state w)).
Proof.
  intros A E Hb D. cbv zeta. rewrite exec_doReload_active by auto.
  rewrite E. destruct b as [|a0 b]; [congruence|].
  destruct (takeBatch_state w) as (R & _ & _ & _ & _ & _ & SS & _).
  cbv zeta in R, SS.
  destruct (@mergeBatch_state slotFrom onReloaded client (a0 :: b)
              (exec takeBatch w)) as (_ & _ & _ & ST & _).
  cbv zeta in ST. rewrite ST. clear ST.
  rewrite mergeLoop_rows by exact D. simpl app.
  change (registry (with_effects ?e (exec takeBatch w)))
    with (registry (exec takeBatch w)).
  rewrite R, SS, length_map.
  unfold responseKeys in *.
  set (resp := delegationsAndRewards client (a0 :: b)) in *.
  assert (H : map ChainStakingState.hash
                (map (snapshotRow slotFrom (ledgerTip client) (registry w))
                   resp) = map fst resp).
  { rewrite map_map. apply map_ext. intros item.
    apply snapshotRow_hash. }
  split.
  - intros item Hin.
    destruct resp as [|x resp'] eqn:Hr; [contradiction|]. rewrite <- Hr in *.
    replace (Nat.eqb (length resp) 0) with false by now rewrite Hr.
    rewrite <- (snapshotRow_hash slotFrom (ledgerTip client) (registry w) item).
    apply upsertRows_get_in.
    + now rewrite H.
    + now apply in_map.
  - intros k N. destruct (Nat.eqb (length resp) 0); auto.
    apply upsertRows_get_other. now rewrite H.
Qed.

(** The same on a concrete run: the row of the credential being removed. *)
Lemma doReload_writes_snapshots_witness :
  let w' := exec (doReload sampleSlotFrom true sampleClient) removingC1 in
  JsMap.get "c1" (staking_state w') =
    Some (ChainStakingState.mk "c1" "f0c1" (Some "pool1") 5 1000) /\
  JsMap.has "c1" (registry w') = false.
Proof.
  destruct (@doReload_writes_snapshots sampleSlotFrom true sampleClient
              removingC1 ["f0c1"]) as (G & _); try reflexivity.
  - discriminate.
  - repeat constructor. simpl. tauto.
  - split; [|reflexivity].
    apply (G ("c1", DelegationsAndRewards.mk (Some "pool1") (Some 5%Z))).
    simpl. auto.
Defined.

(** ** Where actions come from *)

Lemma certificateActions_from w slot tx e :
  In e (flat_map (certificateActions w slot (Tx.id tx)) (Tx.certificates tx)) ->
  ChainStaking.slot e = slot /\ ChainStaking.txId e = Tx.id tx /\
  comesFrom w tx e.
Proof.
  intros H. apply in_flat_map in H. destruct H as (cert & Hc & H).
  unfold comesFrom.
  destruct cert as [h|h p|h|]; simpl in H; try contradiction;
    destruct (JsMap.has h (registry w)); try contradiction;
    destruct H as [<-|[]]; simpl; auto.
Qed.

Lemma withdrawalActions_from w slot tx e :
  In e (withdrawalActions w slot (Tx.id tx) (Tx.withdrawals tx)) ->
  ChainStaking.slot e = slot /\ ChainStaking.txId e = Tx.id tx /\
  comesFrom w tx e.
Proof.
  intros H. unfold withdrawalActions in H. apply in_flat_map in H.
  destruct H as ([a amt] & Ha & H). unfold comesFrom.
  destruct (JsMap.get a (revRegistry w)) as [h|] eqn:E; [|contradiction].
  destruct (truthy h); [|contradiction].
  destruct H as [<-|[]]. simpl. repeat split. now exists a.
Qed.

Lemma length_flat_map_le {X Y} (f : X -> list Y) (l : list X) :
  (forall x, length (f x) <= 1) -> length (flat_map f l) <= length l.
Proof.
  intros H. induction l as [|x l IH]; simpl; auto.
  rewrite length_app. specialize (H x). lia.
Qed.

(** X9.  Every action the extractor emits comes from the block: it carries
    the slot of the block and the id of one of its transactions, and it
    stands for a withdrawal entry of that transaction whose address the
    reverse map resolves to the action's credential, or for a registration,
    delegation or deregistration certificate of that transaction naming the
    credential.  There are no more actions than entries and certificates. *)
Theorem extractEvents_only_from_block (w : World) (block : Block.t) :
  let events := eval (extractEvents block) w in
  length events <=
    list_sum (map (fun tx => length (Tx.withdrawals tx) +
                             length (Tx.certificates tx))
                  (Block.body block)) /\
  (forall e, In e events ->
     ChainStaking.slot e = Block.slot block /\
     exists tx, In tx (Block.body block) /\
                ChainStaking.txId e = Tx.id tx /\ comesFrom w tx e).
Proof.
  cbv zeta. unfold eval. rewrite extractEvents_run. simpl fst.
  unfold blockActions. split.
  - induction (Block.body block) as [|tx txs IH]; simpl; auto.
    rewrite length_app. unfold txActions at 1. rewrite length_app.
    assert (length (withdrawalActions w (Block.slot block) (Tx.id tx)
                      (Tx.withdrawals tx)) <= length (Tx.withdrawals tx)).
    { apply length_flat_map_le. intros [a amt].
      destruct (JsMap.get a (revRegistry w)) as [h|]; simpl; auto.
      destruct (truthy h); simpl; auto. }
    assert (length (flat_map (certificateActions w (Block.slot block)
                                (Tx.id tx)) (Tx.certificates tx))
            <= length (Tx.certificates tx)).
    { apply length_flat_map_le. intros [h|h p|h|]; simpl; auto;
        destruct (JsMap.has h (registry w)); simpl; auto. }
    lia.
  - intros e H. apply in_flat_map in H. destruct H as (tx & Htx & H).
    unfold txActions in H. apply in_app_or in H.
    destruct H as [H|H];
      [apply withdrawalActions_from in H | apply certificateActions_from in H];
      destruct H as (S & T & C); split; auto; exists tx; auto.
Qed.

(** The same on a concrete run. *)
Lemma extractEvents_only_from_block_witness :
  ChainStaking.slot (ChainStaking.mk "c1" Deregister 2000 "tx1") = 2000%Z /\
  length (eval (extractEvents mixedBlock) watchingC1) <= 7.
Proof.
  destruct (@extractEvents_only_from_block watchingC1 mixedBlock) as (L & G).
  split; [|exact L].
  apply (G (ChainStaking.mk "c1" Deregister 2000 "tx1")).
  vm_compute. tauto.
Defined.

(** ** Stopping *)

(** X10.  [stop] only lowers the active flag: the registry, the pending
    work and both tables stay as they are.  A second [stop] only warns.  A
    reload execution that the queue still runs afterwards fetches nothing
    and writes nothing: it warns once and empties the selective set. *)
Theorem stop_then_doReload
  (slotFrom : Tip -> Z) (onReloaded : bool) (client : StateQueryClient)
  (w : World) :
  let w1 := exec stop w in
  let w2 := exec (doReload slotFrom onReloaded client) w1 in
  isActive w1 = false /\
  registry w1 = registry w /\ revRegistry w1 = revRegistry w /\
  toReload w1 = toReload w /\ toRemove w1 = toRemove w /\
  fullReload w1 = fullReload w /\
  staking w1 = staking w /\ staking_state w1 = staking_state w /\
  exec stop w1 = with_effects (effects w1 ++ [ConsoleWarn AlreadyStopped]) w1 /\
  registry w2 = registry w /\ revRegistry w2 = revRegistry w /\
  staking_state w2 = staking_state w /\ toReload w2 = JsSet.empty /\
  effects w2 =
    effects w1 ++
    [ConsoleWarn (InactiveIgnoredReload
       (if fullReload w then None else Some (JsSet.values (toReload w))))].
Proof.
  cbv zeta.
  assert (S : isActive (exec stop w) = false /\
              registry (exec stop w) = registry w /\
              revRegistry (exec stop w) = revRegistry w /\
              toReload (exec stop w) = toReload w /\
              toRemove (exec stop w) = toRemove w /\
              fullReload (exec stop w) = fullReload w /\
              staking (exec stop w) = staking w /\
              staking_state (exec stop w) = staking_state w).
  { unfold stop. run. destruct (isActive w) eqn:A; simpl; auto 10. }
  destruct S as (A & R & V & TR & TM & F & ST & SS).
  rewrite doReload_inactive by exact A. simpl.
  rewrite R, V, TR, F, SS.
  repeat split; auto.
  unfold stop at 1. unfold exec at 1, bind at 1, read at 1. rewrite A.
  reflexivity.
Qed.

(** ** More on recovery *)

Lemma NoDup_map_filter {X Y} (f : X -> Y) (p : X -> bool) (l : list X) :
  NoDup (map f l) -> NoDup (map f (filter p l)).
Proof.
  induction l as [|x l IH]; simpl; auto.
  intros D. inversion D as [|? ? N D']; subst.
  destruct (p x); simpl; auto. constructor; auto.
  intros H. apply N. apply in_map_iff in H. destruct H as (y & E & H).
  apply filter_In in H. apply in_map_iff. exists y. tauto.
Qed.

Lemma distinctOnHash_NoDup rows :
  NoDup (map ChainStaking.hash (distinctOnHash rows)).
Proof.
  induction rows as [|r rows IH]; simpl; constructor.
  - intros H. apply in_map_iff in H. destruct H as (x & E & H).
    apply filter_In in H. destruct H as [_ H].
    rewrite E, String.eqb_refl in H. discriminate.
  - now apply NoDup_map_filter.
Qed.

Lemma mostRecentAction_in h table a :
  mostRecentAction h table = Some a ->
  exists r, In r table /\ ChainStaking.hash r = h /\ ChainStaking.action r = a.
Proof.
  induction table as [|x table IH]; simpl; [discriminate|].
  destruct (mostRecentAction h table) as [a'|].
  - intros E. destruct (IH E) as (r & Hin & Hr). exists r. tauto.
  - destruct (String.eqb_spec (ChainStaking.hash x) h); [|discriminate].
    intros [= <-]. exists x. tauto.
Qed.

Lemma mostRecentAction_app h l1 l2 :
  mostRecentAction h (l1 ++ l2) =
  match mostRecentAction h l2 with
  | Some a => Some a
  | None => mostRecentAction h l1
  end.
Proof.
  induction l1 as [|x l1 IH]; simpl.
  - now destruct (mostRecentAction h l2).
  - rewrite IH. now destruct (mostRecentAction h l2).
Qed.

(** X11.  The recovery query returns every credential at most once, and
    only credentials that have a row in the log. *)
Theorem selectActive_distinct (table : list ChainStaking.t) :
  NoDup (selectActive table) /\
  (forall h, In h (selectActive table) ->
             exists r, In r table /\ ChainStaking.hash r = h /\
                       ChainStaking.action r <> Deregister).
Proof.
  split.
  - unfold selectActive. apply NoDup_map_filter, distinctOnHash_NoDup.
  - intros h H. apply selectActive_spec in H. destruct H as (a & M & N).
    apply mostRecentAction_in in M. destruct M as (r & Hin & Hh & Ha).
    exists r. repeat split; auto. congruence.
Qed.

(** The same on a concrete run. *)
Lemma selectActive_distinct_witness :
  exists r, In r recoveryLog /\ ChainStaking.hash r = "X" /\
            ChainStaking.action r <> Deregister.
Proof.
  destruct (@selectActive_distinct recoveryLog) as (_ & G).
  apply G. vm_compute. tauto.
Defined.

(** X12.  When the reset of its un-awaited [clear] lands before the rows
    (the queue is idle), [reboot] forgets what the indexer held in memory:
    started from two states over the same log it ends with the same
    registry, the same reverse map, empty pending sets and the flag down,
    whatever the two states watched or had pending, and a second [reboot]
    changes no entry.  When the reset has not landed by then (a reload in
    flight, or no queue yet), what the state watched stays watched: every
    credential the query does not return keeps the address it had. *)
Theorem reboot_depends_on_log_only
  (derive : StakingType -> string -> string) (w1 w2 : World) :
  staking w1 = staking w2 ->
  let r1 := exec (reboot derive ClearLandsFirst) w1 in
  let r2 := exec (reboot derive ClearLandsFirst) w2 in
  registry r1 = registry r2 /\ revRegistry r1 = revRegistry r2 /\
  toReload r1 = JsSet.empty /\ toReload r2 = JsSet.empty /\
  toRemove r1 = JsSet.empty /\ toRemove r2 = JsSet.empty /\
  fullReload r1 = false /\ fullReload r2 = false /\
  registry (exec (reboot derive ClearLandsFirst) r1) = registry r1 /\
  (forall outcome h,
     outcome <> ClearLandsFirst ->
     JsSet.has h (selectActive (staking w1)) = false ->
     eval (fromHash h) (exec (reboot derive outcome) w1) =
     eval (fromHash h) w1).
Proof.
  intros E. cbv zeta.
  assert (Late : forall outcome h,
     outcome <> ClearLandsFirst ->
     JsSet.has h (selectActive (staking w1)) = false ->
     eval (fromHash h) (exec (reboot derive outcome) w1) =
     eval (fromHash h) w1).
  { intros outcome h N H. rewrite !eval_fromHash, reboot_get, H.
    destruct outcome; [congruence | reflexivity ..]. }
  rewrite !reboot_state. simpl. rewrite E.
  repeat split. rewrite <- E. exact Late.
Qed.

(** The same on a concrete run. *)
Lemma reboot_depends_on_log_only_witness :
  registry (exec (reboot hexRewardAddress ClearLandsFirst) watchingC1) =
  registry (exec (reboot hexRewardAddress ClearLandsFirst) removingC1).
Proof.
  destruct (@reboot_depends_on_log_only hexRewardAddress watchingC1
              removingC1 eq_refl) as (G & _).
  exact G.
Defined.

(** The handler, all at once. *)
Lemma afterBlock_run block inSync storeBlock w :
  exec (afterBlock block inSync storeBlock) w =
  match blockActions w block with
  | [] => w
  | _ :: _ =>
      let events := blockActions w block in
      let w1 := exec (unwatchAll (deregistered events)) w in
      let stored :=
        with_staking (staking w1 ++ events)
          (with_effects
             (effects w1 ++ (if storeBlock then [StoreBlock] else []) ++
              [SqlInsertStaking events]) w1) in
      if inSync
      then exec (reload (Some (map ChainStaking.hash events))) stored
      else stored
  end.
Proof.
  unfold afterBlock. rewrite exec_bind. unfold eval, exec at 2.
  rewrite extractEvents_run. simpl fst. simpl snd.
  destruct (blockActions w block) as [|e es] eqn:Ev.
  - reflexivity.
  - cbv zeta.
    generalize (exec (unwatchAll (deregistered (e :: es))) w). intros w1.
    unfold sqlInsertStaking. run.
    destruct storeBlock, inSync; simpl; rewrite <- ?app_assoc; reflexivity.
Qed.

(** What the handler leaves: the registry as it was, the log longer by the
    actions of the block. *)
Lemma afterBlock_state block inSync storeBlock w :
  let w' := exec (afterBlock block inSync storeBlock) w in
  registry w' = registry w /\ revRegistry w' = revRegistry w /\
  staking w' = staking w ++ blockActions w block /\
  staking_state w' = staking_state w.
Proof.
  cbv zeta. rewrite afterBlock_run.
  destruct (blockActions w block) as [|e es] eqn:Ev.
  - rewrite app_nil_r. auto.
  - cbv zeta.
    destruct (unwatchAll_state (deregistered (e :: es)) w)
      as (R & V & _ & _ & _ & _ & ST & SS & _).
    cbv zeta in R, V, ST, SS.
    remember (exec (unwatchAll (deregistered (e :: es))) w) as w1 eqn:Hw.
    clear Hw.
    destruct inSync; [rewrite reload_some_run|]; simpl;
      try destruct (fullReload _); try destruct (willReloadDynamically _);
      simpl; rewrite ?ST; auto.
Qed.

(** X13.  What a block logs decides the next recovery, provided no reload
    is in flight when [reboot] runs (the queue is idle, so the reset of its
    un-awaited [clear] lands first).  After [afterBlock] and then such a
    [reboot], a credential whose last action in the block is a
    deregistration is not watched; one whose last action in the block is
    anything else is watched at its script address; one the block has no
    action for is watched exactly when the log before the block says so.
    When the reset has not landed by the time [reboot] resolves, every
    credential watched before the block is still watched, a deregistration
    in the block notwithstanding. *)
Theorem afterBlock_then_reboot
  (derive : StakingType -> string -> string) (w : World)
  (block : Block.t) (inSync storeBlock : bool) (h : string) :
  let events := eval (extractEvents block) w in
  let logged := exec (afterBlock block inSync storeBlock) w in
  let w' := exec (reboot derive ClearLandsFirst) logged in
  (mostRecentAction h events = Some Deregister ->
   eval (isHashWatched h) w' = false) /\
  (forall a, mostRecentAction h events = Some a -> a <> Deregister ->
   eval (fromHash h) w' = Some (derive Script h)) /\
  (mostRecentAction h events = None ->
   (eval (isHashWatched h) w' = true <->
    exists a, mostRecentAction h (staking w) = Some a /\ a <> Deregister)) /\
  (forall outcome,
     outcome <> ClearLandsFirst ->
     eval (isHashWatched h) w = true ->
     eval (isHashWatched h) (exec (reboot derive outcome) logged) = true).
Proof.
  cbv zeta.
  assert (Late : forall outcome,
     outcome <> ClearLandsFirst ->
     eval (isHashWatched h) w = true ->
     eval (isHashWatched h)
       (exec (reboot derive outcome)
          (exec (afterBlock block inSync storeBlock) w)) = true).
  { intros outcome N W. rewrite eval_isHashWatched in *. unfold JsMap.has in *.
    rewrite reboot_get.
    destruct (afterBlock_state block inSync storeBlock w) as (R & _).
    cbv zeta in R. rewrite R.
    destruct (JsSet.has h _); [reflexivity|].
    destruct outcome; [congruence | exact W ..]. }
  cut ((mostRecentAction h (eval (extractEvents block) w) = Some Deregister ->
        eval (isHashWatched h)
          (exec (reboot derive ClearLandsFirst)
             (exec (afterBlock block inSync storeBlock) w)) = false) /\
       (forall a,
          mostRecentAction h (eval (extractEvents block) w) = Some a ->
          a <> Deregister ->
          eval (fromHash h)
            (exec (reboot derive ClearLandsFirst)
               (exec (afterBlock block inSync storeBlock) w)) =
          Some (derive Script h)) /\
       (mostRecentAction h (eval (extractEvents block) w) = None ->
        (eval (isHashWatched h)
           (exec (reboot derive ClearLandsFirst)
              (exec (afterBlock block inSync storeBlock) w)) = true <->
         exists a, mostRecentAction h (staking w) = Some a /\
                   a <> Deregister))).
  { intros (A & B & C). repeat split; auto; apply C; auto. }
  unfold eval at 1 3 5. rewrite extractEvents_run. simpl fst.
  rewrite eval_isHashWatched, eval_fromHash. unfold JsMap.has.
  rewrite reboot_get.
  destruct (afterBlock_state block inSync storeBlock w) as (_ & _ & ST & _).
  cbv zeta in ST. rewrite ST.
  assert (G : JsSet.has h (selectActive (staking w ++ blockActions w block))
              = true <->
              exists a, mostRecentAction h (staking w ++ blockActions w block)
                        = Some a /\ a <> Deregister).
  { rewrite JsSetFacts.has_in. apply selectActive_spec. }
  rewrite mostRecentAction_app in G.
  split; [|split].
  - intros E. rewrite E in G.
    destruct (JsSet.has h (selectActive (staking w ++ blockActions w block)));
      [|reflexivity].
    destruct (proj1 G eq_refl) as (a & M & N). congruence.
  - intros a M N. rewrite M in G.
    replace (JsSet.has h (selectActive (staking w ++ blockActions w block)))
      with true; [reflexivity|].
    symmetry. apply G. now exists a.
  - intros M. rewrite M in G. rewrite <- G.
    destruct (JsSet.has h (selectActive (staking w ++ blockActions w block)));
      split; congruence.
Qed.

(** The same on a concrete run: the block deregisters [c1]. *)
Lemma afterBlock_then_reboot_witness :
  eval (isHashWatched "c1")
       (exec (reboot hexRewardAddress ClearLandsFirst)
             (exec (afterBlock mixedBlock true false) watchingC1)) = false.
Proof.
  destruct (@afterBlock_then_reboot hexRewardAddress watchingC1 mixedBlock
              true false "c1") as (G & _).
  apply G. reflexivity.
Defined.

(** ** The registry over whole runs *)

Section ScriptOnly.
Variable derive : StakingType -> string -> string.
Hypothesis derive_injective :
  forall t h t' h', derive t h = derive t' h' -> h = h'.
Hypothesis derive_nonempty : forall t h, derive t h <> "".

Lemma healthy_maps w :
  healthy derive w <->
  soundMaps derive (registry w) (revRegistry w) /\
  Forall (fun r => ChainStaking.hash r <> "") (staking w).
Proof. unfold healthy, soundMaps. tauto. Qed.

Lemma healthy_ext w w' :
  registry w' = registry w -> revRegistry w' = revRegistry w ->
  staking w' = staking w -> healthy derive w -> healthy derive w'.
Proof. unfold healthy. intros -> -> ->. auto. Qed.

Lemma soundMaps_empty : soundMaps derive JsMap.empty JsMap.empty.
Proof.
  split; [apply inverse_at_kind_empty|]. simpl. discriminate.
Qed.

Lemma soundMaps_set reg rev h :
  h <> "" -> soundMaps derive reg rev ->
  soundMaps derive (JsMap.set h (derive Script h) reg)
                   (JsMap.set (derive Script h) h rev).
Proof.
  intros N [I K]. split.
  - exact (@inverse_at_kind_set derive (fun _ => Script) derive_injective
             reg rev h I).
  - intros k a. destruct (String.eqb_spec h k) as [<-|D]; auto.
    rewrite JsMapFacts.get_set_neq by auto. apply K.
Qed.

Lemma soundMaps_fold hashes reg rev :
  ~ In "" hashes -> soundMaps derive reg rev ->
  soundMaps derive
    (fold_left (fun m hash => JsMap.set hash (derive Script hash) m)
       hashes reg)
    (fold_left (fun m hash => JsMap.set (derive Script hash) hash m)
       hashes rev).
Proof.
  revert reg rev. induction hashes as [|h hs IH]; intros reg rev N S; auto.
  simpl in *. apply IH; [tauto|]. apply soundMaps_set; auto.
Qed.

(** Taking a credential and its address away keeps the maps sound. *)
Lemma soundMaps_delete reg rev h :
  soundMaps derive reg rev ->
  soundMaps derive (JsMap.delete h reg)
    (JsMap.delete (match JsMap.get h reg with Some a => a | None => "" end)
       rev).
Proof.
  intros [[I Kd] K]. split; [split|].
  - intros h' a'.
    destruct (JsMap.get h reg) as [a|] eqn:G.
    + destruct (String.eqb_spec h h') as [<-|Nh].
      * rewrite JsMapFacts.get_delete_eq. split; [discriminate|].
        destruct (String.eqb_spec a a') as [<-|Na].
        -- now rewrite JsMapFacts.get_delete_eq.
        -- rewrite JsMapFacts.get_delete_neq by auto. intros E.
           apply I in E. congruence.
      * rewrite JsMapFacts.get_delete_neq by auto.
        destruct (String.eqb_spec a a') as [<-|Na].
        -- rewrite JsMapFacts.get_delete_eq. split; [|discriminate].
           intros E. apply I in E. apply I in G. congruence.
        -- rewrite JsMapFacts.get_delete_neq by auto. apply I.
    + assert (E0 : JsMap.get "" rev = None).
      { destruct (JsMap.get "" rev) as [x|] eqn:E; auto.
        apply I in E. apply Kd in E. exfalso.
        exact (derive_nonempty (eq_sym E)). }
      destruct (String.eqb_spec h h') as [<-|Nh].
      * rewrite JsMapFacts.get_delete_eq.
        destruct (String.eqb_spec "" a') as [<-|Na].
        -- now rewrite JsMapFacts.get_delete_eq.
        -- rewrite JsMapFacts.get_delete_neq by auto. rewrite <- I, G.
           tauto.
      * rewrite JsMapFacts.get_delete_neq by auto.
        destruct (String.eqb_spec "" a') as [<-|Na].
        -- rewrite JsMapFacts.get_delete_eq. split; [|discriminate].
           intros E. apply Kd in E. exfalso.
           exact (derive_nonempty (eq_sym E)).
        -- rewrite JsMapFacts.get_delete_neq by auto. apply I.
  - intros h' a' E. destruct (String.eqb_spec h h') as [<-|Nh].
    + now rewrite JsMapFacts.get_delete_eq in E.
    + rewrite JsMapFacts.get_delete_neq in E by auto. now apply Kd in E.
  - intros h' a' E. destruct (String.eqb_spec h h') as [<-|Nh].
    + now rewrite JsMapFacts.get_delete_eq in E.
    + rewrite JsMapFacts.get_delete_neq in E by auto. now apply K in E.
Qed.

Lemma mergeLoop_soundMaps slotFrom tip resp acc w :
  soundMaps derive (registry w) (revRegistry w) ->
  soundMaps derive
    (registry (exec (foldM resp acc (mergeEntry slotFrom tip)) w))
    (revRegistry (exec (foldM resp acc (mergeEntry slotFrom tip)) w)).
Proof.
  revert acc w.
  apply (foldM_invariant
           (fun w => soundMaps derive (registry w) (revRegistry w))).
  intros acc [h e] w _ S.
  destruct (@mergeEntry_state slotFrom tip acc h e w) as (_ & R & V & _).
  cbv zeta in R, V. rewrite R, V.
  destruct (JsSet.has h (toRemove w)); auto.
  now apply soundMaps_delete.
Qed.

Lemma doReload_healthy slotFrom onReloaded client w :
  healthy derive w ->
  healthy derive (exec (doReload slotFrom onReloaded client) w).
Proof.
  intros H. destruct (isActive w) eqn:A.
  - rewrite exec_doReload_active by auto.
    destruct (takeBatch_state w) as (R & V & _ & _ & _ & S & _).
    cbv zeta in R, V, S.
    assert (H1 : healthy derive (exec takeBatch w))
      by (now apply (healthy_ext (w := w))).
    destruct (eval takeBatch w) as [[|a b]|]; auto.
    destruct (@mergeBatch_state slotFrom onReloaded client (a :: b)
                (exec takeBatch w)) as (R' & V' & (_ & _ & _ & _ & _ & S' & _) & _).
    cbv zeta in R', V'. simpl in S'.
    apply healthy_maps. apply healthy_maps in H1. destruct H1 as [M L].
    rewrite R', V', S'. split; auto.
    now apply mergeLoop_soundMaps.
  - rewrite doReload_inactive by auto.
    now apply (healthy_ext (w := w)).
Qed.

Lemma blockActions_nonempty w block :
  healthy derive w ->
  Forall (fun r => ChainStaking.hash r <> "") (blockActions w block).
Proof.
  intros (_ & K & _). apply Forall_forall. intros e H.
  unfold blockActions in H. apply in_flat_map in H.
  destruct H as (tx & _ & H). unfold txActions in H.
  apply in_app_or in H. destruct H as [H|H].
  - unfold withdrawalActions in H. apply in_flat_map in H.
    destruct H as ([a amt] & _ & H).
    destruct (JsMap.get a (revRegistry w)) as [h|]; [|contradiction].
    destruct (truthy h) eqn:T; [|contradiction].
    destruct H as [<-|[]]. simpl. intros ->. discriminate.
  - apply in_flat_map in H. destruct H as (cert & _ & H).
    apply certificateActions_watched in H.
    apply JsMapFacts.has_true in H. destruct H as (a & H).
    now apply K in H.
Qed.

Lemma afterBlock_healthy block inSync storeBlock w :
  healthy derive w ->
  healthy derive (exec (afterBlock block inSync storeBlock) w).
Proof.
  intros H.
  destruct (afterBlock_state block inSync storeBlock w) as (R & V & S & _).
  cbv zeta in R, V, S. apply healthy_maps. rewrite R, V, S.
  pose proof (blockActions_nonempty block H) as B.
  apply healthy_maps in H. destruct H as [M L]. split; auto.
  apply Forall_app. auto.
Qed.

(** [reboot] keeps the maps sound wherever the reset of its [clear]
    falls: the recovered credentials go on top of sound maps, the empty
    ones or the old ones. *)
Lemma reboot_healthy outcome w :
  healthy derive w -> healthy derive (exec (reboot derive outcome) w).
Proof.
  intros H. apply healthy_maps in H. destruct H as [M L].
  assert (N : ~ In "" (selectActive (staking w))).
  { intros Hin. apply selectActive_spec in Hin. destruct Hin as (a & R & _).
    apply mostRecentAction_in in R. destruct R as (r & Hr & E & _).
    rewrite Forall_forall in L. now apply (L r Hr). }
  apply healthy_maps. destruct outcome.
  - rewrite reboot_state. simpl. split; auto.
    apply soundMaps_fold; [exact N | apply soundMaps_empty].
  - rewrite reboot_unreset_state by discriminate. simpl. split; auto.
    now apply soundMaps_fold.
  - rewrite reboot_unreset_state by discriminate. simpl. split; auto.
    now apply soundMaps_fold.
Qed.

Lemma clearAfterDrain_healthy w :
  healthy derive w -> healthy derive (exec clearAfterDrain w).
Proof.
  intros H. apply healthy_maps in H. destruct H as [_ L].
  apply healthy_maps. rewrite clearAfterDrain_state. simpl.
  split; [apply soundMaps_empty | exact L].
Qed.

Lemma runIndexerCall_healthy slotFrom onReloaded c w :
  scriptOnly c -> healthy derive w ->
  healthy derive (exec (runIndexerCall derive slotFrom onReloaded c) w).
Proof.
  intros Hc H.
  destruct c as [| | |outcome| |rc|state|hashes|client|block inSync sb];
    simpl.
  - now apply (healthy_ext (w := w)).
  - apply (healthy_ext (w := w)); auto; unfold stop; run;
      destruct (isActive w); reflexivity.
  - apply healthy_maps. apply healthy_maps in H. destruct H as [_ L].
    split; [apply soundMaps_empty | exact L].
  - now apply reboot_healthy.
  - now apply clearAfterDrain_healthy.
  - destruct rc as [h t|hs t|h]; simpl in Hc |- *.
    + destruct Hc as [-> N]. apply healthy_maps. rewrite watch_run. simpl.
      apply healthy_maps in H. destruct H as [M L]. split; auto.
      now apply soundMaps_set.
    + destruct Hc as [-> N]. apply healthy_maps. rewrite batchWatch_run.
      simpl. apply healthy_maps in H. destruct H as [M L]. split; auto.
      now apply soundMaps_fold.
    + rewrite exec_bind, exec_ret.
      destruct (unwatch_registry w h) as [R V].
      apply (healthy_ext (w := w)); auto.
      unfold unwatch. run. destruct (JsMap.has h (registry w)); reflexivity.
  - now apply (healthy_ext (w := w)).
  - destruct hashes as [hs|].
    + rewrite reload_some_run.
      destruct (fullReload w); auto.
      cbv zeta. destruct (willReloadDynamically w);
        now apply (healthy_ext (w := w)).
    + apply (healthy_ext (w := w)); auto; unfold reload; run;
        destruct (fullReload w); reflexivity.
  - now apply doReload_healthy.
  - now apply afterBlock_healthy.
Qed.

Lemma runIndexerCalls_healthy slotFrom onReloaded cs :
  Forall scriptOnly cs ->
  forall w, healthy derive w ->
  healthy derive (exec (runIndexerCalls derive slotFrom onReloaded cs) w).
Proof.
  intros Hcs. apply forEach_invariant. intros c w Hin H.
  rewrite Forall_forall in Hcs. now apply runIndexerCall_healthy; auto.
Qed.
End ScriptOnly.

(** X14.  Used as the file intends, with script credentials only, none of
    them empty, over a log without empty credentials, and with an address
    derivation that is injective and never empty, the indexer keeps its two
    maps exact inverses through every sequence of operations: start, stop,
    clear, reboot (wherever the reset of its un-awaited clear falls: before
    the rows, after [reboot] has resolved, or never), watch, batchWatch,
    unwatch, toggleReloadDynamically, reload, reload executions (whatever
    the node answers) and blocks.
    Every address of the reverse map then belongs to a watched, non-empty
    credential. *)
Theorem script_only_runs_keep_registry_sound
  (derive : StakingType -> string -> string)
  (slotFrom : Tip -> Z) (onReloaded : bool)
  (log : list ChainStaking.t) (state : JsMap.t ChainStakingState.t)
  (cs : list IndexerCall) :
  (forall t h t' h', derive t h = derive t' h' -> h = h') ->
  (forall t h, derive t h <> "") ->
  Forall (fun r => ChainStaking.hash r <> "") log ->
  Forall scriptOnly cs ->
  let w := exec (runIndexerCalls derive slotFrom onReloaded cs)
                (createStakingIndexer log state) in
  registry_inverse w /\ reverse_sound w.
Proof.
  intros Hinj Hne Hlog Hcs. cbv zeta.
  assert (H0 : healthy derive (createStakingIndexer log state)).
  { apply healthy_maps. split; [apply soundMaps_empty | exact Hlog]. }
  pose proof (@runIndexerCalls_healthy derive Hinj Hne slotFrom onReloaded
                cs Hcs _ H0) as ((I & _) & K & _).
  split; [exact I|].
  intros a h E. apply I in E. split; [now apply K in E|].
  apply JsMapFacts.has_true. eauto.
Qed.

Lemma hexRewardAddress_nonempty t h : hexRewardAddress t h <> "".
Proof. destruct t; discriminate. Qed.

(** The same on a concrete run. *)
Lemma script_only_runs_keep_registry_sound_witness :
  registry_inverse
    (exec (runIndexerCalls hexRewardAddress sampleSlotFrom true sampleRun)
          (createStakingIndexer recoveryLog [])).
Proof.
  destruct (@script_only_runs_keep_registry_sound hexRewardAddress
              sampleSlotFrom true recoveryLog [] sampleRun) as (G & _).
  - exact hexRewardAddress_injective.
  - exact hexRewardAddress_nonempty.
  - repeat constructor; discriminate.
  - repeat constructor; discriminate.
  - exact G.
Defined.

(** ** An execution takes all pending work *)



